(** * A tracking memory resource and the singly linked queue built on it

    Shallow embedding of [include/queue_pmr.hpp]:
    - [DynamicVectorMemoryResource] (a [std::pmr::memory_resource] that records
      every block it hands out in the vector [blocks_]),
    - [QueueNode], [QueueIterator] and [pmr_queue].

    Pointers are machine addresses ([Z], [nullptr] is [0]); [std::size_t] is a
    64-bit unsigned integer whose increment and decrement wrap around.  The
    global [::operator new] and [::operator delete] are the environment of the
    program: the address [operator new] answers with is an input of the
    operations that allocate, constrained only by the contract of the C++
    allocation functions. *)

From stdpp Require Import gmap list strings.
From Stdlib Require Import ZArith Lia.

#[local] Set Warnings "-clear-no-such-hyp".

Open Scope Z_scope.

(** ** Machine integers and pointers *)

Definition nullptr : Z := 0.

(** One past the largest [std::size_t]; also one past the largest address. *)
Definition SIZE_MODULUS : Z := 2 ^ 64.

(** [++n] and [--n] on a [std::size_t]. *)
Definition size_incr (n : Z) : Z := (n + 1) mod SIZE_MODULUS.
Definition size_decr (n : Z) : Z := (n - 1) mod SIZE_MODULUS.

(** ** Outcomes of an operation

    An operation returns ([Ok]), leaves by an exception ([Throw], with the
    state the exception leaves behind) or has undefined behaviour. *)

Inductive exception :=
  | bad_alloc
  | runtime_error (what : string)
  | value_exception (code : Z).

Inductive result (S A : Type) :=
  | Ok (a : A) (s : S)
  | Throw (e : exception) (s : S)
  | Undefined.
Arguments Ok {S A} a s.
Arguments Throw {S A} e s.
Arguments Undefined {S A}.

Definition M (S A : Type) : Type := S → result S A.

Definition ret {S A} (a : A) : M S A := λ s, Ok a s.

Definition bind {S A B} (m : M S A) (k : A → M S B) : M S B := λ s,
  match m s with
  | Ok a s' => k a s'
  | Throw e s' => Throw e s'
  | Undefined => Undefined
  end.

Definition throw {S A} (e : exception) : M S A := λ s, Throw e s.
Definition get {S} : M S S := λ s, Ok s s.
Definition modify {S} (f : S → S) : M S unit := λ s, Ok tt (f s).

Declare Scope cpp_scope.
Delimit Scope cpp_scope with cpp.
Notation "'let*' x ':=' m 'in' k" := (bind m (λ x, k))
  (at level 10, x name, m at level 100, k at level 200) : cpp_scope.
Notation "m >> k" := (bind m (λ _, k))
  (at level 100, k at level 200, right associativity) : cpp_scope.

(** The state an operation leaves behind, whether it returned or threw. *)
Definition state_after {S A} (r : result S A) : option S :=
  match r with
  | Ok _ s | Throw _ s => Some s
  | Undefined => None
  end.

(** ** The system allocator and the resource *)

Record BlockInfo := mkBlock {
  ptr : Z;
  block_size : Z;      (* the field [size] of the source *)
  alignment : Z;
  allocated : bool
}.

Definition release (b : BlockInfo) : BlockInfo :=
  mkBlock (ptr b) (block_size b) (alignment b) false.

(** [sys_live]: the addresses [::operator new] has handed out and that
    [::operator delete] has not taken back.  [sys_log]: every call of
    [::operator delete], as (pointer, alignment), oldest first.
    [blocks_]: the vector of the resource. *)
Record World := mkWorld {
  sys_live : gset Z;
  sys_log : list (Z * Z);
  blocks_ : list BlockInfo
}.

(** What [::operator new] may answer in a given state: nothing (it throws
    [std::bad_alloc]) or a non-null address that is not in use. *)
Definition new_contract (ans : option Z) (w : World) : Prop :=
  match ans with
  | None => True
  | Some p => 0 < p < SIZE_MODULUS ∧ p ∉ sys_live w
  end.

Definition operator_new (ans : option Z) : M World Z := λ w,
  match ans with
  | None => Throw bad_alloc w
  | Some p => Ok p (mkWorld ({[p]} ∪ sys_live w) (sys_log w) (blocks_ w))
  end.

(** Deleting an address that is not in use (a double free, or a pointer that
    never came from [operator new]) is undefined behaviour. *)
Definition operator_delete (p al : Z) : M World unit := λ w,
  if decide (p ∈ sys_live w)
  then Ok tt (mkWorld (sys_live w ∖ {[p]}) (sys_log w ++ [(p, al)]) (blocks_ w))
  else Undefined.

Definition set_blocks (f : list BlockInfo → list BlockInfo) (w : World) : World :=
  mkWorld (sys_live w) (sys_log w) (f (blocks_ w)).

(** [std::find_if] over [blocks_]: the position and the record of the first
    block whose [ptr] is [p]; [None] is [blocks_.end()]. *)
Definition find_block (bs : list BlockInfo) (p : Z) : option (nat * BlockInfo) :=
  list_find (λ b, ptr b = p) bs.

(** [blocks_.push_back(b)]: the vector has or obtains room for one more
    record ([grows]), or it throws [std::bad_alloc] and stays as it is.  The
    buffer of the vector is storage of its own, apart from the blocks the
    resource hands out. *)
Definition push_back (b : BlockInfo) (grows : bool) : M World unit :=
  if grows then modify (set_blocks (λ bs, bs ++ [b])) else throw bad_alloc.

(** [ans] is what [::operator new] answers, [grows] whether the [push_back]
    that follows succeeds.  When it does not, the exception leaves with the
    block obtained and no record of it. *)
Definition do_allocate (bytes al : Z) (ans : option Z) (grows : bool)
    : M World Z :=
  (let* p := operator_new ans in
   push_back (mkBlock p bytes al true) grows >>
   ret p)%cpp.

Definition do_deallocate (p bytes al : Z) : M World unit :=
  (let* w := get in
   match find_block (blocks_ w) p with
   | Some (i, b) =>
       if allocated b
       then operator_delete p (alignment b) >>
            modify (set_blocks (λ bs, <[i := release b]> bs))
       else ret tt
   | None => ret tt
   end)%cpp.

(** The loop of [~DynamicVectorMemoryResource]. *)
Fixpoint destroy_blocks (bs : list BlockInfo) : M World unit :=
  match bs with
  | [] => ret tt
  | b :: bs' =>
      ((if allocated b then operator_delete (ptr b) (alignment b) else ret tt) >>
       destroy_blocks bs')%cpp
  end.

Definition resource_destructor : M World unit :=
  (let* w := get in destroy_blocks (blocks_ w))%cpp.

(** A freshly constructed resource tracks nothing. *)
Definition resource_new (live : gset Z) (log : list (Z * Z)) : World :=
  mkWorld live log [].

(** The records still marked live, and their addresses. *)
Definition outstanding (w : World) : list BlockInfo :=
  filter (λ b, allocated b = true) (blocks_ w).

Definition live_ptrs (bs : list BlockInfo) : list Z :=
  ptr <$> filter (λ b, allocated b = true) bs.

(** Sequences of calls on the resource.  An [Allocate] carries what
    [::operator new] answers at that call and whether [push_back] succeeds. *)
Inductive op :=
  | Allocate (bytes al : Z) (ans : option Z) (grows : bool)
  | Deallocate (p bytes al : Z).

Definition step (o : op) (w : World) : option World :=
  match o with
  | Allocate bytes al ans grows => state_after (do_allocate bytes al ans grows w)
  | Deallocate p bytes al => state_after (do_deallocate p bytes al w)
  end.

Fixpoint run (ops : list op) (w : World) : option World :=
  match ops with
  | [] => Some w
  | o :: ops' =>
      match step o w with
      | Some w' => run ops' w'
      | None => None
      end
  end.

Definition op_contract (o : op) (w : World) : Prop :=
  match o with
  | Allocate _ _ ans _ => new_contract ans w
  | Deallocate _ _ _ => True
  end.

(** Every answer of [::operator new] along the run respects its contract. *)
Fixpoint ops_contract (ops : list op) (w : World) : Prop :=
  match ops with
  | [] => True
  | o :: ops' => op_contract o w ∧ ∀ w', step o w = Some w' → ops_contract ops' w'
  end.

(** The contracts are decidable, so a concrete run can be checked by
    evaluation. *)
#[global] Instance new_contract_dec (ans : option Z) (w : World) :
  Decision (new_contract ans w).
Proof. destruct ans; simpl; apply _. Defined.

#[global] Instance op_contract_dec (o : op) (w : World) :
  Decision (op_contract o w).
Proof. destruct o; simpl; apply _. Defined.

#[global] Instance ops_contract_dec (ops : list op) (w : World) :
  Decision (ops_contract ops w).
Proof.
  revert w. induction ops as [|o ops IH]; intros w; simpl; [apply _|].
  destruct (decide (op_contract o w)) as [Hc|Hc]; [|right; by intros [? _]].
  destruct (step o w) as [w'|] eqn:Hs.
  - destruct (IH w') as [Hr|Hr].
    + left. split; [done|]. by intros ? [= <-].
    + right. intros [_ Hall]. by apply Hr, Hall.
  - left. split; [done|]. intros ? [=].
Defined.

(** The consistency of the resource with the system allocator: the records
    marked live have pairwise distinct addresses, all of them in use. *)
Definition resource_inv (w : World) : Prop :=
  NoDup (live_ptrs (blocks_ w)) ∧ ∀ p, p ∈ live_ptrs (blocks_ w) → p ∈ sys_live w.

(** The calls of [::operator delete] made between two states, and how often
    an address was deleted among them. *)
Definition released_between (w w' : World) : list (Z * Z) :=
  drop (length (sys_log w)) (sys_log w').

Definition times_released (p : Z) (log : list (Z * Z)) : nat :=
  length (filter (λ e, e.1 = p) log).

Definition release_call (b : BlockInfo) : Z * Z := (ptr b, alignment b).

(** ** Nodes, iterators and the queue *)

Record QueueNode (T : Type) := mkNode { value : T; next : Z }.
Arguments mkNode {T} value next.
Arguments value {T} _.
Arguments next {T} _.

Record QueueIterator := mkIter { node_ : Z }.

(** The state a queue lives in: the resource its allocator handle [alloc_]
    points to (with the system allocator behind it), the nodes that are
    constructed in memory, by address, and the three fields of the queue. *)
Record State (T : Type) := mkState {
  world : World;
  nodes : gmap Z (QueueNode T);
  head_ : Z;
  tail_ : Z;
  size_ : Z
}.
Arguments mkState {T} world nodes head_ tail_ size_.
Arguments world {T} _.
Arguments nodes {T} _.
Arguments head_ {T} _.
Arguments tail_ {T} _.
Arguments size_ {T} _.

(** The two overloads of [push]: [push(const T &)] copies the value into the
    node, [push(T &&)] moves it. *)
Inductive push_kind := by_copy | by_move.

Section Queue.
Context {T : Type}.

(** The constructor of [T] that [QueueNode]'s constructor runs: [None] when
    it constructs (a copy of) the value, [Some e] when it throws [e]. *)
Variable value_ctor : push_kind → T → option exception.

(** [sizeof(Node)] and [alignof(Node)]. *)
Variables sizeof_Node alignof_Node : Z.

Definition set_world (f : World → World) (s : State T) : State T :=
  mkState (f (world s)) (nodes s) (head_ s) (tail_ s) (size_ s).
Definition set_nodes (f : gmap Z (QueueNode T) → gmap Z (QueueNode T))
    (s : State T) : State T :=
  mkState (world s) (f (nodes s)) (head_ s) (tail_ s) (size_ s).
Definition set_head (p : Z) (s : State T) : State T :=
  mkState (world s) (nodes s) p (tail_ s) (size_ s).
Definition set_tail (p : Z) (s : State T) : State T :=
  mkState (world s) (nodes s) (head_ s) p (size_ s).
Definition set_size (f : Z → Z) (s : State T) : State T :=
  mkState (world s) (nodes s) (head_ s) (tail_ s) (f (size_ s)).

(** Running a call on the resource inside the queue's state. *)
Definition on_world {A} (m : M World A) : M (State T) A := λ s,
  match m (world s) with
  | Ok a w => Ok a (set_world (λ _, w) s)
  | Throw e w => Throw e (set_world (λ _, w) s)
  | Undefined => Undefined
  end.

(** Access to a node through a pointer: undefined behaviour when the
    pointer is null or no node is constructed there. *)
Definition load (p : Z) : M (State T) (QueueNode T) := λ s,
  if decide (p = nullptr) then Undefined
  else match nodes s !! p with
       | Some n => Ok n s
       | None => Undefined
       end.

(** [p->next = q]. *)
Definition store_next (p q : Z) : M (State T) unit :=
  (let* n := load p in
   modify (set_nodes (λ h, <[p := mkNode (value n) q]> h)))%cpp.

(** *** QueueIterator *)

(** [operator*]: [return node_->value;] *)
Definition operator_star (it : QueueIterator) : M (State T) T :=
  (let* n := load (node_ it) in ret (value n))%cpp.

(** [operator->]: [return &(node_->value);] the value is the first member
    of the node, its address is the node's. *)
Definition operator_arrow (it : QueueIterator) : M (State T) Z :=
  (let* n := load (node_ it) in ret (node_ it))%cpp.

(** [operator++()]: the updated iterator. *)
Definition operator_inc (it : QueueIterator) : M (State T) QueueIterator :=
  if bool_decide (node_ it ≠ nullptr)
  then (let* n := load (node_ it) in ret (mkIter (next n)))%cpp
  else ret it.

(** [operator++(int)]: the returned copy and the updated iterator. *)
Definition operator_inc_post (it : QueueIterator)
    : M (State T) (QueueIterator * QueueIterator) :=
  let tmp := it in
  (let* it' := operator_inc it in ret (tmp, it'))%cpp.

Definition iter_eq (a b : QueueIterator) : bool :=
  bool_decide (node_ a = node_ b).
Definition iter_ne (a b : QueueIterator) : bool := negb (iter_eq a b).

(** *** pmr_queue *)

(** The constructor: an empty queue bound to the resource of [w]. *)
Definition pmr_queue_new (w : World) (mem : gmap Z (QueueNode T)) : State T :=
  mkState w mem nullptr nullptr 0.

(** [allocator_traits<NodeAlloc>::allocate(na, 1)] and [deallocate(na, p, 1)]
    go to the resource with the size and alignment of one node. *)
Definition allocate_node (ans : option Z) (grows : bool) : M (State T) Z :=
  on_world (do_allocate sizeof_Node alignof_Node ans grows).
Definition deallocate_node (p : Z) : M (State T) unit :=
  on_world (do_deallocate p sizeof_Node alignof_Node).

(** [construct(na, p, alloc_, value)] runs [QueueNode]'s constructor at [p]:
    the value is constructed first, [next] is null. *)
Definition construct (k : push_kind) (p : Z) (v : T) : M (State T) unit :=
  match value_ctor k v with
  | Some e => throw e
  | None => modify (set_nodes (λ h, <[p := mkNode v nullptr]> h))
  end.

(** [destroy(na, p)] ends the lifetime of the node at [p]. *)
Definition destroy (p : Z) : M (State T) unit :=
  (let* n := load p in modify (set_nodes (λ h, delete p h)))%cpp.

(** [push(const T &)] and [push(T &&)], told apart by [k]; [ans] is what
    [::operator new] answers when the resource asks it for the node. *)
Definition push (k : push_kind) (v : T) (ans : option Z) (grows : bool)
    : M (State T) unit :=
  (let* newNode := allocate_node ans grows in
   construct k newNode v >>
   let* s := get in
   (if decide (tail_ s = nullptr)
    then modify (set_tail newNode) >> modify (set_head newNode)
    else store_next (tail_ s) newNode >> modify (set_tail newNode)) >>
   modify (set_size size_incr))%cpp.

Definition pop : M (State T) unit :=
  (let* s := get in
   if decide (head_ s = nullptr)
   then throw (runtime_error "pop from empty queue")
   else
     let tmp := head_ s in
     let* n := load tmp in
     modify (set_head (next n)) >>
     let* s' := get in
     (if decide (head_ s' = nullptr) then modify (set_tail nullptr) else ret tt) >>
     destroy tmp >>
     deallocate_node tmp >>
     modify (set_size size_decr))%cpp.

(** [front()], const or not: the value of the head node. *)
Definition front : M (State T) T :=
  (let* s := get in
   if decide (head_ s = nullptr)
   then throw (runtime_error "front of empty queue")
   else let* n := load (head_ s) in ret (value n))%cpp.

(** [empty()], [size()], [begin()] and [end()]. *)
Definition q_empty (s : State T) : bool := bool_decide (head_ s = nullptr).
Definition q_size (s : State T) : Z := size_ s.
Definition q_begin (s : State T) : QueueIterator := mkIter (head_ s).
Definition q_end (s : State T) : QueueIterator := mkIter nullptr.

(** The loop [for (it = first; it != last; ++it) out.push_back( *it )] that
    a range-based [for] over the queue runs; [None] when [fuel] iterations
    did not reach [last]. *)
Fixpoint collect (fuel : nat) (it last : QueueIterator) (s : State T)
    : option (result (State T) (list T)) :=
  if iter_ne it last then
    match fuel with
    | O => None
    | S fuel' =>
        match operator_star it s with
        | Ok v s1 =>
            match operator_inc it s1 with
            | Ok it' s2 =>
                match collect fuel' it' last s2 with
                | Some (Ok vs s3) => Some (Ok (v :: vs) s3)
                | other => other
                end
            | Throw e s2 => Some (Throw e s2)
            | Undefined => Some Undefined
            end
        | Throw e s1 => Some (Throw e s1)
        | Undefined => Some Undefined
        end
    end
  else Some (Ok [] s).

(** Sequences of queue operations; a [Push] carries what [::operator new]
    answers at that call. *)
Inductive qop :=
  | Push (k : push_kind) (v : T) (ans : option Z) (grows : bool)
  | Pop.

Definition exec (o : qop) : M (State T) unit :=
  match o with
  | Push k v ans grows => push k v ans grows
  | Pop => pop
  end.

(** The operations one after the other; an exception ends the sequence. *)
Fixpoint exec_all (ops : list qop) : M (State T) unit :=
  match ops with
  | [] => ret tt
  | o :: ops' => (exec o >> exec_all ops')%cpp
  end.

(** The operations one after the other, where the caller catches the
    exception of an operation and goes on. *)
Definition qstep (o : qop) (s : State T) : option (State T) :=
  state_after (exec o s).

Fixpoint qrun (ops : list qop) (s : State T) : option (State T) :=
  match ops with
  | [] => Some s
  | o :: ops' =>
      match qstep o s with
      | Some s' => qrun ops' s'
      | None => None
      end
  end.

Definition qop_contract (o : qop) (s : State T) : Prop :=
  match o with
  | Push _ _ ans _ => new_contract ans (world s)
  | Pop => True
  end.

Fixpoint qops_contract (ops : list qop) (s : State T) : Prop :=
  match ops with
  | [] => True
  | o :: ops' =>
      qop_contract o s ∧ ∀ s', qstep o s = Some s' → qops_contract ops' s'
  end.

#[global] Instance qop_contract_dec (o : qop) (s : State T) :
  Decision (qop_contract o s).
Proof. destruct o; simpl; apply _. Defined.

#[global] Instance qops_contract_dec (ops : list qop) (s : State T) :
  Decision (qops_contract ops s).
Proof.
  revert s. induction ops as [|o ops IH]; intros s; simpl; [apply _|].
  destruct (decide (qop_contract o s)) as [Hc|Hc]; [|right; by intros [? _]].
  destruct (qstep o s) as [s'|] eqn:Hs.
  - destruct (IH s') as [Hr|Hr].
    + left. split; [done|]. by intros ? [= <-].
    + right. intros [_ Hall]. by apply Hr, Hall.
  - left. split; [done|]. intros ? [=].
Defined.

(** Pushes that are given their storage: the overload, the value and the
    address [::operator new] answers with. *)
Definition pushes (l : list (push_kind * T * Z)) : list qop :=
  (λ x, Push x.1.1 x.1.2 (Some x.2) true) <$> l.

Definition pushed_values (l : list (push_kind * T * Z)) : list T :=
  (λ x, x.1.2) <$> l.

Definition pushed_cells (l : list (push_kind * T * Z)) : list (Z * T) :=
  (λ x, (x.2, x.1.2)) <$> l.

(** The record [do_allocate] appends for a node allocated at [a]. *)
Definition node_block (a : Z) : BlockInfo :=
  mkBlock a sizeof_Node alignof_Node true.

End Queue.

(** A default-constructed iterator: [QueueIterator(QueueNode<T> *node = nullptr)]. *)
Definition QueueIterator_default : QueueIterator := mkIter nullptr.

(** ** The shape of the node chain *)

Section Chain.
Context {T : Type}.

(** [chain h p cs]: following [next] from [p] in [h] passes through exactly
    the cells [cs] (address and value of each node, in order) and then
    reaches [nullptr]. *)
Fixpoint chain (h : gmap Z (QueueNode T)) (p : Z) (cs : list (Z * T)) : Prop :=
  match cs with
  | [] => p = nullptr
  | c :: cs' =>
      p = c.1 ∧ p ≠ nullptr
      ∧ ∃ nx, h !! p = Some (mkNode c.2 nx) ∧ chain h nx cs'
  end.

(** The address of the last cell, [nullptr] when there is none. *)
Definition last_addr (cs : list (Z * T)) : Z := default nullptr (last cs.*1).

(** The invariant that [push] and [pop] maintain, for the cells [cs] of the
    queue: besides the shape of the chain, the nodes are distinct blocks that
    the system allocator still counts as in use. *)
Definition queue_inv (s : State T) (cs : list (Z * T)) : Prop :=
  chain (nodes s) (head_ s) cs
  ∧ NoDup cs.*1
  ∧ (∀ a, a ∈ cs.*1 → 0 < a < SIZE_MODULUS ∧ a ∈ sys_live (world s))
  ∧ tail_ s = last_addr cs
  ∧ size_ s = Z.of_nat (length cs).

(** Walking the [next] links from [p]: the addresses visited until
    [nullptr], or [None] when [fuel] steps do not reach it or a link
    dangles. *)
Fixpoint walk (fuel : nat) (h : gmap Z (QueueNode T)) (p : Z) : option (list Z) :=
  if decide (p = nullptr) then Some []
  else match fuel with
       | O => None
       | S fuel' =>
           match h !! p with
           | Some n => cons p <$> walk fuel' h (next n)
           | None => None
           end
       end.

(** The structural invariant of the queue as the specification words it. *)
Definition structural_inv (s : State T) : Prop :=
  (size_ s = 0 ↔ head_ s = nullptr)
  ∧ (head_ s = nullptr ↔ tail_ s = nullptr)
  ∧ (0 < size_ s →
     ∃ visited, walk (Z.to_nat (size_ s)) (nodes s) (head_ s) = Some visited
       ∧ Z.of_nat (length visited) = size_ s
       ∧ last visited = Some (tail_ s))
  ∧ (tail_ s ≠ nullptr →
     ∃ n, nodes s !! tail_ s = Some n ∧ next n = nullptr).

End Chain.

(** ** The queue's destructor, repeated increments, and the contents of a queue *)

Section QueueMore.
Context {T : Type}.
Variable value_ctor : push_kind → T → option exception.
Variables sizeof_Node alignof_Node : Z.

(** [++it], [k] times over. *)
Fixpoint advance (k : nat) (it : QueueIterator) : M (State T) QueueIterator :=
  match k with
  | O => ret it
  | S k' => (let* it' := operator_inc it in advance k' it')%cpp
  end.

(** One turn of the loop of [~pmr_queue]: unlink the head node, destroy it and
    hand its storage back. *)
Definition destructor_body : M (State T) unit :=
  (let* s := get in
   let tmp := head_ s in
   let* n := load tmp in
   modify (set_head (next n)) >>
   destroy tmp >>
   deallocate_node sizeof_Node alignof_Node tmp)%cpp.

(** [~pmr_queue]: [while (head_ != nullptr) ...]; [None] when [fuel] turns
    did not empty the chain. *)
Fixpoint queue_destructor (fuel : nat) (s : State T)
    : option (result (State T) unit) :=
  if decide (head_ s = nullptr) then Some (Ok tt s)
  else match fuel with
       | O => None
       | S fuel' =>
           match destructor_body s with
           | Ok _ s' => queue_destructor fuel' s'
           | Throw e s' => Some (Throw e s')
           | Undefined => Some Undefined
           end
       end.

(** The values a queue holds after an operation, from the values it held
    before: a [push] that gets its storage, has it recorded and constructs its
    value appends it, a [pop] drops the first value, a call that throws
    changes nothing. *)
Definition contents_step (vs : list T) (o : qop (T := T)) : list T :=
  match o with
  | Push k v (Some _) true =>
      match value_ctor k v with
      | None => vs ++ [v]
      | Some _ => vs
      end
  | Push _ _ _ _ => vs
  | Pop => tail vs
  end.

Definition contents_after (ops : list (qop (T := T))) (vs : list T) : list T :=
  foldl contents_step vs ops.

(** The blocks of the resource and the system allocator: what is in use is
    what was in use when the resource was created ([live0]) together with the
    blocks of the live records, and these do not overlap. *)
Definition owned_inv (live0 : gset Z) (w : World) : Prop :=
  resource_inv w
  ∧ sys_live w = live0 ∪ list_to_set (live_ptrs (blocks_ w))
  ∧ ∀ p, p ∈ live_ptrs (blocks_ w) → p ∉ live0.

(** The nodes of the queue are blocks the resource tracks as live. *)
Definition tracked_inv (live0 : gset Z) (s : State T) (cs : list (Z * T)) : Prop :=
  queue_inv s cs
  ∧ owned_inv live0 (world s)
  ∧ ∀ a, a ∈ cs.*1 → a ∈ live_ptrs (blocks_ (world s)).

End QueueMore.

(** The records marked non-live. *)
Definition dead_records (w : World) : list BlockInfo :=
  filter (λ b, allocated b = false) (blocks_ w).

(** An operation that is not a deallocation of [p]. *)
Definition not_deallocate (p : Z) (o : op) : Prop :=
  match o with
  | Deallocate q _ _ => q ≠ p
  | Allocate _ _ _ _ => True
  end.

(** What may become of a record between two states: it keeps its address,
    size and alignment, and is live afterwards only if it was live before. *)
Definition record_kept (b b' : BlockInfo) : Prop :=
  ptr b' = ptr b ∧ block_size b' = block_size b ∧ alignment b' = alignment b
  ∧ (allocated b' = true → allocated b = true).

Definition records_kept (w w' : World) : Prop :=
  ∀ i b, blocks_ w !! i = Some b → ∃ b', blocks_ w' !! i = Some b' ∧ record_kept b b'.

(** The block an [allocate] leaves without a record: the one [::operator new]
    gave when the [push_back] after it threw. *)
Definition orphan (ans : option Z) (grows : bool) : gset Z :=
  match ans, grows with
  | Some p, false => {[p]}
  | _, _ => ∅
  end.

Definition op_orphan (o : op) : gset Z :=
  match o with
  | Allocate _ _ ans grows => orphan ans grows
  | Deallocate _ _ _ => ∅
  end.

Definition orphans (ops : list op) : gset Z := ⋃ (op_orphan <$> ops).

Definition qop_orphan {T : Type} (o : qop (T := T)) : gset Z :=
  match o with
  | Push _ _ ans grows => orphan ans grows
  | Pop => ∅
  end.

Definition qorphans {T : Type} (ops : list (qop (T := T))) : gset Z :=
  ⋃ (qop_orphan <$> ops).
(** ** Concrete scenarios *)

(** The scenario of the test [CleansUpOnDestruction]: two blocks are
    allocated and never deallocated. *)
Definition two_blocks_left : World :=
  mkWorld {[64; 256]} [] [mkBlock 64 100 8 true; mkBlock 256 200 16 true].

(** The calls of the test [AllocateDeallocateInt], up to its second
    allocation, when [::operator new] hands the block it has just been given
    back out again. *)
Definition reuse_trace : list op :=
  [Allocate 4 4 (Some 16) true; Deallocate 16 4 4; Allocate 4 4 (Some 16) true].

(** An [int] queue (values as [Z]) whose element constructors never throw,
    with nodes of 16 bytes aligned to 8. *)
Definition int_ctor (k : push_kind) (v : Z) : option exception := None.

Definition int_pop := pop (T := Z) 16 8.
Definition int_exec_all := exec_all (T := Z) int_ctor 16 8.
Definition int_qrun := qrun (T := Z) int_ctor 16 8.
Definition int_qops_contract := qops_contract (T := Z) int_ctor 16 8.

(** A new [int] queue on a new resource, nothing else in memory. *)
Definition fresh_int_queue : State Z := pmr_queue_new (resource_new ∅ []) ∅.

(** The scenario of the test [WorksForInt], with the third value moved in. *)
Definition five_pushes : list (push_kind * Z * Z) :=
  [(by_copy, 1, 16); (by_copy, 2, 32); (by_move, 3, 48); (by_copy, 4, 64);
   (by_copy, 5, 80)].

(** Pushes and pops mixed, with a [pop] on the emptied queue, a [push] whose
    allocation fails, and a [push] that is given a block back that was
    released before. *)
Definition mixed_ops : list (qop (T := Z)) :=
  [Push by_copy 10 (Some 16) true; Push by_move 20 (Some 32) true; Pop; Pop;
   Pop; Push by_copy 30 None true; Push by_copy 30 (Some 16) true].

(** An element type whose constructors throw on negative values. *)
Definition picky_ctor (k : push_kind) (v : Z) : option exception :=
  if bool_decide (v < 0) then Some (value_exception v) else None.

(** A queue of that type holding the single value 7 in a node at 16. *)
Definition one_element_queue : State Z :=
  mkState (mkWorld {[16]} [] [mkBlock 16 16 8 true])
          {[16 := mkNode 7 nullptr]} 16 16 1.

(** The queue and the resource after one element was pushed and popped: the
    queue is empty again, the node's block is released and its record is
    marked non-live. *)
Definition used_int_queue : State Z :=
  mkState (mkWorld ∅ [(16, 8)] [mkBlock 16 16 8 false]) ∅ nullptr nullptr 0.

(** The next push: [::operator new] answers with the block that was just
    released. *)
Definition push_reusing_block : list (push_kind * Z * Z) := [(by_copy, 2, 16)].

(** Calls on a new resource: two allocations, the first block deallocated
    twice, an address deallocated that was never allocated, the released
    address handed out again, and an allocation that fails. *)
Definition churn_trace : list op :=
  [Allocate 100 8 (Some 64) true; Allocate 200 16 (Some 256) true;
   Deallocate 64 100 8; Deallocate 64 100 8; Deallocate 999 1 1;
   Allocate 4 4 (Some 64) true; Allocate 8 8 None true].

(** The resource after [churn_trace]. *)
Definition churned : World :=
  mkWorld {[64; 256]} [(64, 8)]
    [mkBlock 64 100 8 false; mkBlock 256 200 16 true; mkBlock 64 4 4 true].

(** Calls that leave the block at 256 alone. *)
Definition calls_elsewhere : list op :=
  [Deallocate 64 100 8; Allocate 4 4 (Some 64) true; Deallocate 64 4 4].

Definition after_calls_elsewhere : World :=
  mkWorld {[64; 256]} [(64, 8)]
    [mkBlock 64 100 8 false; mkBlock 256 200 16 true; mkBlock 64 4 4 true].

(** Three pushes onto a new [int] queue. *)
Definition three_pushes : list (push_kind * Z * Z) :=
  [(by_copy, 10, 16); (by_copy, 20, 32); (by_move, 30, 48)].

(** [churn_trace], then an allocation whose record cannot be stored. *)
Definition churn_then_no_room : list op :=
  churn_trace ++ [Allocate 8 8 (Some 512) false].

(** [mixed_ops], then a [push] whose block cannot be recorded. *)
Definition mixed_ops_then_no_room : list (qop (T := Z)) :=
  mixed_ops ++ [Push by_copy 40 (Some 64) false].

(** ** Properties of the resource *)

Lemma live_ptrs_app (l1 l2 : list BlockInfo) :
  live_ptrs (l1 ++ l2) = live_ptrs l1 ++ live_ptrs l2.
Proof. unfold live_ptrs. by rewrite filter_app, fmap_app. Qed.

Lemma live_ptrs_cons (b : BlockInfo) (l : list BlockInfo) :
  live_ptrs (b :: l) = if allocated b then ptr b :: live_ptrs l else live_ptrs l.
Proof.
  unfold live_ptrs. rewrite filter_cons.
  destruct (allocated b); by case_decide.
Qed.

Lemma live_ptrs_release (bs : list BlockInfo) (i : nat) (b : BlockInfo) :
  bs !! i = Some b → allocated b = true →
  live_ptrs bs = live_ptrs (take i bs) ++ ptr b :: live_ptrs (drop (S i) bs)
  ∧ live_ptrs (<[i := release b]> bs)
    = live_ptrs (take i bs) ++ live_ptrs (drop (S i) bs).
Proof.
  intros Hi Hb. split.
  - rewrite <- (take_drop_middle bs i b Hi) at 1.
    by rewrite live_ptrs_app, live_ptrs_cons, Hb.
  - rewrite insert_take_drop by (by eapply lookup_lt_Some).
    by rewrite live_ptrs_app, live_ptrs_cons.
Qed.

Lemma find_block_Some (bs : list BlockInfo) (p : Z) (i : nat) (b : BlockInfo) :
  find_block bs p = Some (i, b) →
  bs !! i = Some b ∧ ptr b = p ∧ ∀ j c, bs !! j = Some c → (j < i)%nat → ptr c ≠ p.
Proof. unfold find_block. by rewrite list_find_Some. Qed.

Lemma live_ptrs_elem (bs : list BlockInfo) (p : Z) :
  p ∈ live_ptrs bs ↔ ∃ b, b ∈ bs ∧ allocated b = true ∧ ptr b = p.
Proof.
  unfold live_ptrs. rewrite list_elem_of_fmap. split.
  - intros (b & -> & Hb). apply list_elem_of_filter in Hb. naive_solver.
  - intros (b & Hb & Ha & <-). exists b. split; [done|].
    by apply list_elem_of_filter.
Qed.

Lemma do_allocate_Some (bytes al p : Z) (w : World) :
  do_allocate bytes al (Some p) true w
  = Ok p (mkWorld ({[p]} ∪ sys_live w) (sys_log w)
                  (blocks_ w ++ [mkBlock p bytes al true])).
Proof. reflexivity. Qed.

(** [::operator new] gave a block and [push_back] threw: the block is in
    use and nothing records it. *)
Lemma do_allocate_no_room (bytes al p : Z) (w : World) :
  do_allocate bytes al (Some p) false w
  = Throw bad_alloc (mkWorld ({[p]} ∪ sys_live w) (sys_log w) (blocks_ w)).
Proof. reflexivity. Qed.

Lemma do_allocate_None (bytes al : Z) (grows : bool) (w : World) :
  do_allocate bytes al None grows w = Throw bad_alloc w.
Proof. reflexivity. Qed.

Lemma do_allocate_inv (bytes al : Z) (ans : option Z) (grows : bool)
    (w w' : World) :
  resource_inv w → new_contract ans w →
  state_after (do_allocate bytes al ans grows w) = Some w' → resource_inv w'.
Proof.
  intros [Hnd Hsub] Hc. destruct ans as [p|]; [destruct grows|].
  2: { rewrite do_allocate_no_room. intros [= <-]. split; [done|].
       simpl. intros x Hx. apply elem_of_union. right. by apply Hsub. }
  - rewrite do_allocate_Some. intros [= <-]. destruct Hc as [_ Hfresh].
    unfold resource_inv. simpl. rewrite live_ptrs_app. split.
    + apply NoDup_app. split_and!; [done| |apply NoDup_singleton].
      intros x Hx. rewrite live_ptrs_cons. simpl.
      rewrite list_elem_of_singleton. intros ->. by apply Hfresh, Hsub.
    + intros x. rewrite elem_of_app, live_ptrs_cons. simpl.
      rewrite list_elem_of_singleton. set_solver.
  - rewrite do_allocate_None. by intros [= <-].
Qed.

(** What [do_deallocate] does, by the outcome of the lookup. *)
Lemma do_deallocate_not_found (p bytes al : Z) (w : World) :
  find_block (blocks_ w) p = None → do_deallocate p bytes al w = Ok tt w.
Proof. intros H. unfold do_deallocate, bind, get. by rewrite H. Qed.

Lemma do_deallocate_not_live (p bytes al : Z) (w : World) (i : nat) (b : BlockInfo) :
  find_block (blocks_ w) p = Some (i, b) → allocated b = false →
  do_deallocate p bytes al w = Ok tt w.
Proof. intros H Hb. unfold do_deallocate, bind, get. by rewrite H, Hb. Qed.

Lemma do_deallocate_live (p bytes al : Z) (w : World) (i : nat) (b : BlockInfo) :
  find_block (blocks_ w) p = Some (i, b) → allocated b = true →
  p ∈ sys_live w →
  do_deallocate p bytes al w
  = Ok tt (mkWorld (sys_live w ∖ {[p]}) (sys_log w ++ [(p, alignment b)])
                   (<[i := release b]> (blocks_ w))).
Proof.
  intros H Hb Hp. unfold do_deallocate, bind, get, operator_delete.
  rewrite H, Hb. by rewrite decide_True.
Qed.

Lemma do_deallocate_inv (p bytes al : Z) (w : World) :
  resource_inv w →
  ∃ w', do_deallocate p bytes al w = Ok tt w' ∧ resource_inv w'.
Proof.
  intros [Hnd Hsub].
  destruct (find_block (blocks_ w) p) as [[i b]|] eqn:Hf.
  2: { exists w. by rewrite do_deallocate_not_found. }
  destruct (allocated b) eqn:Hb.
  2: { exists w. by erewrite do_deallocate_not_live. }
  destruct (find_block_Some _ _ _ _ Hf) as (Hi & Hp & _).
  destruct (live_ptrs_release _ _ _ Hi Hb) as [Hold Hnew].
  assert (p ∈ sys_live w) as Hlive.
  { apply Hsub. rewrite Hold, <- Hp. set_solver. }
  eexists. split; [by eapply do_deallocate_live|].
  unfold resource_inv. simpl. rewrite Hnew. rewrite Hold in Hnd, Hsub.
  apply NoDup_app in Hnd as (Hn1 & Hn2 & Hn3).
  apply NoDup_cons in Hn3 as [Hn3 Hn4]. split.
  - apply NoDup_app. split_and!; [done| |done].
    intros x Hx Hx'. apply (Hn2 x Hx). by right.
  - intros x Hx. apply elem_of_difference. split.
    + apply Hsub. set_solver.
    + rewrite elem_of_singleton. intros ->. rewrite Hp in *.
      apply elem_of_app in Hx as [Hx|Hx]; [|done].
      apply (Hn2 p Hx). by left.
Qed.

Lemma run_resource_inv (ops : list op) (w : World) :
  resource_inv w → ops_contract ops w →
  ∃ w', run ops w = Some w' ∧ resource_inv w'.
Proof.
  revert w. induction ops as [|o ops IH]; intros w Hinv Hc; simpl.
  - by exists w.
  - destruct Hc as [Hc Hrest].
    destruct o as [bytes al ans grows|p bytes al]; simpl in *.
    + destruct (state_after (do_allocate bytes al ans grows w)) as [w'|] eqn:Hs.
      * apply IH; [by eapply do_allocate_inv|by apply Hrest].
      * by destruct ans, grows.
    + destruct (do_deallocate_inv p bytes al w Hinv) as (w' & Hd & Hinv').
      rewrite Hd in *. simpl in *. apply IH; [done|by apply Hrest].
Qed.

Lemma resource_new_inv (live : gset Z) (log : list (Z * Z)) :
  resource_inv (resource_new live log).
Proof. split; [apply NoDup_nil_2|]. intros p Hp. by apply elem_of_nil in Hp. Qed.

Lemma destroy_blocks_spec (bs : list BlockInfo) (w : World) :
  NoDup (live_ptrs bs) → (∀ p, p ∈ live_ptrs bs → p ∈ sys_live w) →
  destroy_blocks bs w
  = Ok tt (mkWorld (sys_live w ∖ list_to_set (live_ptrs bs))
             (sys_log w ++ (release_call <$> filter (λ b, allocated b = true) bs))
             (blocks_ w)).
Proof.
  revert w. induction bs as [|b bs IH]; intros w Hnd Hsub.
  - destruct w as [live log blocks]. simpl. unfold ret. f_equal. f_equal.
    + set_solver.
    + by rewrite app_nil_r.
  - rewrite live_ptrs_cons in Hnd, Hsub. rewrite live_ptrs_cons, filter_cons.
    simpl. unfold bind. destruct (allocated b) eqn:Hb.
    + apply NoDup_cons in Hnd as [Hfst Hnd]. unfold operator_delete.
      rewrite decide_True by (apply Hsub; by left).
      rewrite IH; simpl; [|done|].
      * rewrite <- app_assoc. f_equal. f_equal. set_solver.
      * intros p Hp. apply elem_of_difference. split; [apply Hsub; by right|].
        rewrite elem_of_singleton. by intros ->.
    + unfold ret. rewrite IH by done. by rewrite decide_False by done.
Qed.

Lemma times_released_untracked (l : list BlockInfo) (p : Z) :
  p ∉ ptr <$> l → times_released p (release_call <$> l) = 0%nat.
Proof.
  unfold times_released. induction l as [|c l IH]; intros Hp; [done|].
  rewrite fmap_cons in *. apply not_elem_of_cons in Hp as [Hc Hp].
  rewrite filter_cons_False by (simpl; congruence). by apply IH.
Qed.

Lemma times_released_tracked (l : list BlockInfo) (b : BlockInfo) :
  NoDup (ptr <$> l) → b ∈ l → times_released (ptr b) (release_call <$> l) = 1%nat.
Proof.
  induction l as [|c l IH]; intros Hnd Hb.
  - by apply elem_of_nil in Hb.
  - rewrite fmap_cons in Hnd. apply NoDup_cons in Hnd as [Hc Hnd].
    apply elem_of_cons in Hb as [->|Hb].
    + pose proof (times_released_untracked l (ptr c) Hc) as H0.
      unfold times_released in *. rewrite fmap_cons, filter_cons_True by done.
      simpl. by rewrite H0.
    + specialize (IH Hnd Hb). unfold times_released in *.
      rewrite fmap_cons, filter_cons_False; [done|].
      simpl. intros Heq. apply Hc. rewrite Heq. apply list_elem_of_fmap. by exists b.
Qed.

(** C4.  Destroying a resource releases the memory of every record still
    marked live exactly once, with the alignment recorded for it: the
    destructor returns (no address is deleted twice), the calls of
    [::operator delete] it makes are one per live record, every live record's
    address occurs exactly once among them and is no longer in use afterwards,
    and no other address is deleted.  This holds for any number of live
    records. *)
Theorem C4_destructor_releases_each_live_block_once (w : World) :
  resource_inv w →
  ∃ w', resource_destructor w = Ok tt w'
    ∧ sys_log w' = sys_log w ++ released_between w w'
    ∧ released_between w w' = release_call <$> outstanding w
    ∧ (∀ b, b ∈ outstanding w →
         times_released (ptr b) (released_between w w') = 1%nat
         ∧ ptr b ∉ sys_live w')
    ∧ (∀ p, p ∉ live_ptrs (blocks_ w) →
         times_released p (released_between w w') = 0%nat).
Proof.
  intros [Hnd Hsub]. eexists. split.
  { unfold resource_destructor, bind, get. by apply destroy_blocks_spec. }
  assert (released_between w
            (mkWorld (sys_live w ∖ list_to_set (live_ptrs (blocks_ w)))
               (sys_log w ++ (release_call <$> outstanding w)) (blocks_ w))
          = release_call <$> outstanding w) as Hrel.
  { unfold released_between. simpl. by rewrite drop_app_length. }
  fold (outstanding w). rewrite Hrel. split_and!; [done|done| |].
  - intros b Hb. split; [by apply times_released_tracked|].
    simpl. rewrite elem_of_difference, elem_of_list_to_set.
    intros [_ Hn]. apply Hn. unfold live_ptrs. apply list_elem_of_fmap. by exists b.
  - intros p Hp. by apply times_released_untracked.
Qed.

Lemma two_blocks_left_inv : resource_inv two_blocks_left.
Proof.
  split; simpl.
  - by apply (bool_decide_unpack _); vm_compute.
  - intros p. unfold live_ptrs. simpl. set_solver.
Qed.

Lemma C4_destructor_witness :
  ∃ w', resource_destructor two_blocks_left = Ok tt w'
    ∧ sys_log w' = sys_log two_blocks_left ++ released_between two_blocks_left w'
    ∧ released_between two_blocks_left w' = release_call <$> outstanding two_blocks_left
    ∧ (∀ b, b ∈ outstanding two_blocks_left →
         times_released (ptr b) (released_between two_blocks_left w') = 1%nat
         ∧ ptr b ∉ sys_live w')
    ∧ (∀ p, p ∉ live_ptrs (blocks_ two_blocks_left) →
         times_released p (released_between two_blocks_left w') = 0%nat).
Proof.
  exact (C4_destructor_releases_each_live_block_once two_blocks_left
           two_blocks_left_inv).
Defined.

Lemma find_block_release (bs : list BlockInfo) (p : Z) (i : nat) (b : BlockInfo) :
  find_block bs p = Some (i, b) →
  find_block (<[i := release b]> bs) p = Some (i, release b).
Proof.
  intros Hf. destruct (find_block_Some _ _ _ _ Hf) as (Hi & Hp & Hbefore).
  apply list_find_Some. split_and!.
  - apply list_lookup_insert_eq. by eapply lookup_lt_Some.
  - done.
  - intros j c Hj Hlt. rewrite list_lookup_insert_ne in Hj by lia. by eapply Hbefore.
Qed.

Lemma find_block_first (bs : list BlockInfo) (p : Z) (i : nat) (b : BlockInfo) :
  bs !! i = Some b → ptr b = p →
  (∀ j c, bs !! j = Some c → (j < i)%nat → ptr c ≠ p) →
  find_block bs p = Some (i, b).
Proof. intros Hi Hp Hfirst. by apply list_find_Some. Qed.

Lemma find_block_absent (bs : list BlockInfo) (p : Z) :
  p ∉ ptr <$> bs → find_block bs p = None.
Proof.
  intros Hp. apply list_find_None, Forall_forall. intros b Hb Heq.
  apply Hp. rewrite <- Heq. by apply list_elem_of_fmap_2.
Qed.

(** X16.  [deallocate(p, bytes, al)] acts on the first record of [blocks_]
    whose address is [p], and on that record only.  If that record is live,
    exactly one [::operator delete] is made, for [p] with the alignment stored
    in the record (whatever [al] is), that record alone becomes non-live, [p]
    is no longer in use, and deallocating [p] again is a no-op.  If it is
    non-live, or no record has the address [p], nothing changes and nothing is
    released, whatever the later records are. *)
Theorem deallocate_acts_on_first_record (w : World) (p bytes al : Z) :
  resource_inv w →
  (∀ i b, blocks_ w !! i = Some b → ptr b = p →
     (∀ j c, blocks_ w !! j = Some c → (j < i)%nat → ptr c ≠ p) →
     if allocated b
     then ∃ w', do_deallocate p bytes al w = Ok tt w'
            ∧ released_between w w' = [(p, alignment b)]
            ∧ blocks_ w' = <[i := release b]> (blocks_ w)
            ∧ sys_live w' = sys_live w ∖ {[p]}
            ∧ do_deallocate p bytes al w' = Ok tt w'
     else do_deallocate p bytes al w = Ok tt w)
  ∧ (p ∉ ptr <$> blocks_ w → do_deallocate p bytes al w = Ok tt w).
Proof.
  intros [Hnd Hsub]. split.
  - intros i b Hi Hp Hfirst.
    pose proof (find_block_first _ _ _ _ Hi Hp Hfirst) as Hf.
    destruct (allocated b) eqn:Hb; [|by eapply do_deallocate_not_live].
    assert (p ∈ sys_live w) as Hlive.
    { apply Hsub, live_ptrs_elem. exists b. split_and!; [|done|done].
      apply list_elem_of_lookup. by exists i. }
    eexists. split; [by eapply do_deallocate_live|]. simpl. split_and!.
    + unfold released_between. simpl. by rewrite drop_app_length.
    + done.
    + done.
    + eapply do_deallocate_not_live; simpl; [by apply find_block_release|done].
  - intros Hp. by apply do_deallocate_not_found, find_block_absent.
Qed.

(** Of the two blocks, the second is deallocated, with a mismatched alignment
    argument (8): it is released with the recorded alignment (16), and the
    first block is untouched. *)
Lemma deallocate_acts_on_first_record_witness :
  ∃ w', do_deallocate 256 200 8 two_blocks_left = Ok tt w'
    ∧ released_between two_blocks_left w' = [(256, 16)]
    ∧ blocks_ w' = [mkBlock 64 100 8 true; mkBlock 256 200 16 false]
    ∧ sys_live w' = sys_live two_blocks_left ∖ {[256]}
    ∧ do_deallocate 256 200 8 w' = Ok tt w'.
Proof.
  destruct (deallocate_acts_on_first_record two_blocks_left 256 200 8
              two_blocks_left_inv) as [Hfirst _].
  apply (Hfirst 1%nat (mkBlock 256 200 16 true) eq_refl eq_refl).
  intros j c Hj Hlt. destruct j as [|j]; [|lia].
  injection Hj as <-. done.
Defined.

(** C5 (the code breaks it).  After [reuse_trace] on a new resource, with
    every answer of [::operator new] within its contract, a record for the
    address 16 exists and is live (the second one), and its block is in use;
    yet [deallocate(16, 4, 4)] releases nothing and leaves that record live:
    the whole state is unchanged, because the lookup stops at the stale first
    record. *)
Theorem C5_live_record_not_released :
  ops_contract reuse_trace (resource_new ∅ [])
  ∧ ∃ w, run reuse_trace (resource_new ∅ []) = Some w
      ∧ resource_inv w
      ∧ blocks_ w !! 1%nat = Some (mkBlock 16 4 4 true)
      ∧ 16 ∈ sys_live w
      ∧ do_deallocate 16 4 4 w = Ok tt w.
Proof.
  split.
  - by apply (bool_decide_unpack _); vm_compute.
  - exists (mkWorld {[16]} [(16, 4)] [mkBlock 16 4 4 false; mkBlock 16 4 4 true]).
    split_and!; [by vm_compute| |done|set_solver|done].
    split; simpl.
    + by apply (bool_decide_unpack _); vm_compute.
    + intros p. unfold live_ptrs. simpl. set_solver.
Qed.

(** Part of C6 that the code does satisfy: an address answered by a
    successful [allocate] is non-null and is not the address of any record
    that is live at that moment. *)
Lemma do_allocate_fresh (bytes al p : Z) (w : World) :
  resource_inv w → new_contract (Some p) w →
  ∃ w', do_allocate bytes al (Some p) true w = Ok p w'
    ∧ p ≠ nullptr ∧ (p ∉ live_ptrs (blocks_ w))
    ∧ blocks_ w' = blocks_ w ++ [mkBlock p bytes al true].
Proof.
  intros [_ Hsub] [Hrange Hfresh]. eexists. split; [apply do_allocate_Some|].
  split_and!; [unfold nullptr; lia| |done].
  intros Hin. by apply Hfresh, Hsub.
Qed.

(** C6 (the code breaks it).  After [reuse_trace] on a new resource, with
    every answer of [::operator new] within its contract, the vector holds two
    records for the address 16 that is in use; the lookup stops at the stale
    one, and deallocating the live block changes nothing. *)
Theorem C6_lookup_stops_at_stale_record :
  ops_contract reuse_trace (resource_new ∅ [])
  ∧ ∃ w, run reuse_trace (resource_new ∅ []) = Some w
      ∧ 16 ∈ sys_live w
      ∧ blocks_ w = [mkBlock 16 4 4 false; mkBlock 16 4 4 true]
      ∧ find_block (blocks_ w) 16 = Some (0%nat, mkBlock 16 4 4 false)
      ∧ do_deallocate 16 4 4 w = Ok tt w.
Proof.
  split.
  - by apply (bool_decide_unpack _); vm_compute.
  - exists (mkWorld {[16]} [(16, 4)] [mkBlock 16 4 4 false; mkBlock 16 4 4 true]).
    split_and!; [by vm_compute|set_solver|done|done|done].
Qed.

(** ** Properties of the node chain *)

(** Distinct addresses below a bound are fewer than the bound. *)
Lemma NoDup_bounded_length (l : list Z) (bound : Z) :
  0 < bound → NoDup l → (∀ a, a ∈ l → 0 < a < bound) →
  Z.of_nat (length l) < bound.
Proof.
  intros Hpos Hnd Hin.
  assert (l ⊆+ seqZ 1 (bound - 1)) as Hsub.
  { apply NoDup_submseteq; [done|]. intros a Ha. apply elem_of_seqZ.
    specialize (Hin a Ha). lia. }
  apply submseteq_length in Hsub. rewrite length_seqZ in Hsub.
  lia.
Qed.

Lemma size_incr_small (n : Z) :
  0 ≤ n → n + 1 < SIZE_MODULUS → size_incr n = n + 1.
Proof. intros. unfold size_incr. apply Z.mod_small. lia. Qed.

Lemma size_decr_small (n : Z) :
  0 < n < SIZE_MODULUS → size_decr n = n - 1.
Proof. intros. unfold size_decr. apply Z.mod_small. lia. Qed.

Section ChainProofs.
Context {T : Type}.
Implicit Types (h : gmap Z (QueueNode T)) (cs : list (Z * T)).

Lemma chain_insert_frame h p cs a n :
  a ∉ cs.*1 → chain h p cs → chain (<[a := n]> h) p cs.
Proof.
  revert p. induction cs as [|[c v] cs IH]; intros p Ha Hc; [done|].
  rewrite fmap_cons in Ha. apply not_elem_of_cons in Ha as [Hne Ha].
  destruct Hc as (-> & Hnull & nx & Hl & Hc). simpl in *.
  split_and!; [done|done|]. exists nx. split; [|by apply IH].
  by rewrite lookup_insert_ne.
Qed.

Lemma chain_delete_frame h p cs a :
  a ∉ cs.*1 → chain h p cs → chain (delete a h) p cs.
Proof.
  revert p. induction cs as [|[c v] cs IH]; intros p Ha Hc; [done|].
  rewrite fmap_cons in Ha. apply not_elem_of_cons in Ha as [Hne Ha].
  destruct Hc as (-> & Hnull & nx & Hl & Hc). simpl in *.
  split_and!; [done|done|]. exists nx. split; [|by apply IH].
  by rewrite lookup_delete_ne.
Qed.

Lemma last_addr_cons c1 c2 cs : last_addr (c1 :: c2 :: cs) = last_addr (c2 :: cs).
Proof. unfold last_addr. by rewrite !fmap_cons, last_cons_cons. Qed.

Lemma last_addr_snoc cs c : last_addr (cs ++ [c]) = c.1.
Proof. unfold last_addr. rewrite fmap_app. simpl. by rewrite last_snoc. Qed.

Lemma last_addr_elem cs : cs ≠ [] → last_addr cs ∈ cs.*1.
Proof.
  intros Hne. unfold last_addr.
  destruct (last cs.*1) as [a|] eqn:Hl.
  - by apply last_Some_elem_of.
  - apply last_None in Hl. by destruct cs.
Qed.

(** Linking a new node behind the last one: what [tail_->next = newNode]
    does to the chain. *)
Lemma chain_snoc h p cs a v :
  cs ≠ [] → NoDup cs.*1 → a ∉ cs.*1 → a ≠ nullptr →
  h !! a = Some (mkNode v nullptr) → chain h p cs →
  ∃ n, h !! last_addr cs = Some n
    ∧ chain (<[last_addr cs := mkNode (value n) a]> h) p (cs ++ [(a, v)]).
Proof.
  revert p. induction cs as [|[c vc] cs IH]; intros p Hne Hnd Ha Hnull Hnew Hc;
    [done|].
  rewrite fmap_cons in Hnd, Ha. apply NoDup_cons in Hnd as [Hc_fresh Hnd].
  apply not_elem_of_cons in Ha as [Hac Ha].
  destruct Hc as (-> & Hcnull & nx & Hl & Hc). simpl in *.
  destruct cs as [|c2 cs].
  - simpl in Hc. subst nx. exists (mkNode vc nullptr).
    unfold last_addr. simpl. split; [done|].
    split_and!; [done|done|]. exists a. split; [by rewrite lookup_insert_eq|].
    split_and!; [done|done|]. exists nullptr. split; [|done].
    by rewrite lookup_insert_ne.
  - destruct (IH nx) as (n & Hn & Hch); [done|done|done|done|done|done|].
    rewrite last_addr_cons. exists n. split; [done|].
    assert (last_addr (c2 :: cs) ≠ c) as Hlast.
    { intros Heq. apply Hc_fresh. rewrite <- Heq. by apply last_addr_elem. }
    split_and!; [done|done|]. exists nx. split; [|done].
    by rewrite lookup_insert_ne.
Qed.

(** The walk of the structural invariant follows the chain. *)
Lemma chain_walk h p cs :
  chain h p cs → walk (length cs) h p = Some cs.*1.
Proof.
  revert p. induction cs as [|[c v] cs IH]; intros p Hc; simpl in *.
  - by rewrite decide_True.
  - destruct Hc as (-> & Hnull & nx & Hl & Hc).
    rewrite decide_False by done. rewrite Hl. simpl. by rewrite (IH nx).
Qed.

Lemma chain_last_node h p cs :
  chain h p cs → cs ≠ [] →
  ∃ n, h !! last_addr cs = Some n ∧ next n = nullptr.
Proof.
  revert p. induction cs as [|[c v] cs IH]; intros p Hc Hne; [done|].
  destruct Hc as (-> & Hnull & nx & Hl & Hc). simpl in *.
  destruct cs as [|c2 cs].
  - simpl in Hc. subst nx. by exists (mkNode v nullptr).
  - rewrite last_addr_cons. by apply (IH nx).
Qed.

(** The loop of a range-based [for] reads the values of the chain. *)
Lemma chain_collect (s : State T) p cs (fuel : nat) :
  chain (nodes s) p cs → (length cs ≤ fuel)%nat →
  collect fuel (mkIter p) (q_end s) s = Some (Ok cs.*2 s).
Proof.
  revert p fuel. induction cs as [|[c v] cs IH]; intros p fuel Hc Hfuel.
  - simpl in Hc. subst p. by destruct fuel.
  - destruct Hc as (-> & Hnull & nx & Hl & Hc). simpl in *.
    destruct fuel as [|fuel]; [lia|]. simpl.
    unfold iter_ne, iter_eq. simpl. rewrite bool_decide_eq_false_2 by done.
    simpl. unfold operator_star, operator_inc, bind, load. simpl.
    rewrite decide_False by done. rewrite Hl. simpl.
    rewrite bool_decide_eq_true_2 by done.
    rewrite decide_False by done. rewrite Hl. simpl.
    rewrite (IH nx fuel) by (done || lia). done.
Qed.

End ChainProofs.

(** ** Properties of the queue operations *)

Lemma SIZE_MODULUS_pos : 0 < SIZE_MODULUS.
Proof. unfold SIZE_MODULUS. lia. Qed.

(** Deallocating an address that is in use never runs into undefined
    behaviour, and takes no other address away from the system allocator. *)
Lemma do_deallocate_in_use (p bytes al : Z) (w : World) :
  p ∈ sys_live w →
  ∃ w', do_deallocate p bytes al w = Ok tt w'
    ∧ ∀ q, q ≠ p → q ∈ sys_live w → q ∈ sys_live w'.
Proof.
  intros Hp. destruct (find_block (blocks_ w) p) as [[i b]|] eqn:Hf.
  2: { exists w. by rewrite do_deallocate_not_found. }
  destruct (allocated b) eqn:Hb.
  2: { exists w. by erewrite do_deallocate_not_live. }
  eexists. split; [by eapply do_deallocate_live|]. simpl. set_solver.
Qed.

Section QueueProofs.
Context {T : Type}.
Variable value_ctor : push_kind → T → option exception.
Variables sizeof_Node alignof_Node : Z.

Abbreviation push := (push value_ctor sizeof_Node alignof_Node).
Abbreviation pop := (pop (T := T) sizeof_Node alignof_Node).
Abbreviation exec := (exec value_ctor sizeof_Node alignof_Node).
Abbreviation exec_all := (exec_all value_ctor sizeof_Node alignof_Node).
Abbreviation qstep := (qstep value_ctor sizeof_Node alignof_Node).
Abbreviation qrun := (qrun value_ctor sizeof_Node alignof_Node).
Abbreviation qops_contract := (qops_contract value_ctor sizeof_Node alignof_Node).
Abbreviation node_block := (node_block sizeof_Node alignof_Node).

Implicit Types (s : State T) (cs : list (Z * T)).

Lemma queue_inv_length s cs : queue_inv s cs → Z.of_nat (length cs) < SIZE_MODULUS.
Proof.
  intros (_ & Hnd & Hin & _). rewrite <- (length_fmap fst).
  apply NoDup_bounded_length; [apply SIZE_MODULUS_pos|done|].
  intros a Ha. by apply Hin.
Qed.

Lemma pmr_queue_new_inv (w : World) (mem : gmap Z (QueueNode T)) :
  queue_inv (pmr_queue_new w mem) [].
Proof.
  split_and!; try done; [apply NoDup_nil_2|].
  intros a Ha. by apply elem_of_nil in Ha.
Qed.

(** A [push] whose allocation and construction succeed appends one cell. *)
Lemma push_ok k v a s cs :
  queue_inv s cs → new_contract (Some a) (world s) → value_ctor k v = None →
  ∃ s', push k v (Some a) true s = Ok tt s'
    ∧ queue_inv s' (cs ++ [(a, v)])
    ∧ world s' = mkWorld ({[a]} ∪ sys_live (world s)) (sys_log (world s))
                   (blocks_ (world s) ++ [mkBlock a sizeof_Node alignof_Node true]).
Proof.
  intros (Hch & Hnd & Hin & Htail & Hsize) [Hrange Hfresh] Hctor.
  assert (a ∉ cs.*1) as Ha by (intros Hx; by apply Hfresh, Hin).
  assert (a ≠ nullptr) as Hnull by (unfold nullptr; lia).
  assert (NoDup (cs ++ [(a, v)]).*1) as Hnd'.
  { rewrite fmap_app. apply NoDup_app. split_and!; [done| |apply NoDup_singleton].
    intros x Hx. simpl. rewrite list_elem_of_singleton. by intros ->. }
  assert (∀ x, x ∈ (cs ++ [(a, v)]).*1 →
            0 < x < SIZE_MODULUS ∧ x ∈ {[a]} ∪ sys_live (world s)) as Hin'.
  { intros x. rewrite fmap_app, elem_of_app. simpl.
    rewrite list_elem_of_singleton. intros [Hx| ->].
    - destruct (Hin x Hx). split; [done|set_solver].
    - split; [done|set_solver]. }
  assert (size_incr (size_ s) = Z.of_nat (length (cs ++ [(a, v)]))) as Hsz.
  { assert (Z.of_nat (length (cs ++ [(a, v)])) < SIZE_MODULUS) as Hlt.
    { rewrite <- (length_fmap fst).
      apply NoDup_bounded_length; [apply SIZE_MODULUS_pos|done|].
      intros x Hx. by apply Hin'. }
    rewrite length_app in *. simpl in *. rewrite Hsize.
    rewrite size_incr_small; lia. }
  unfold push, bind, allocate_node, on_world. rewrite do_allocate_Some.
  unfold construct. rewrite Hctor. unfold modify, get. simpl.
  destruct (decide (cs = [])) as [->|Hne].
  - simpl in Hch. unfold last_addr in Htail. simpl in Htail.
    rewrite decide_True by done. simpl. eexists. split; [done|].
    split; [|done]. split_and!; simpl; try done.
    split_and!; [done|done|]. exists nullptr. by rewrite lookup_insert_eq.
  - assert (tail_ s ≠ nullptr) as Htl.
    { rewrite Htail. pose proof (last_addr_elem cs Hne) as Hel.
      apply Hin in Hel. unfold nullptr. lia. }
    rewrite decide_False by done. simpl.
    destruct (chain_snoc (<[a := mkNode v nullptr]> (nodes s)) (head_ s) cs a v)
      as (n & Hn & Hch'); try done.
    { by rewrite lookup_insert_eq. }
    { by apply chain_insert_frame. }
    unfold store_next, bind, load. simpl.
    rewrite decide_False by done. rewrite Htail, Hn. simpl.
    eexists. split; [done|]. split; [|done].
    split_and!; simpl; try done.
    by rewrite last_addr_snoc.
Qed.

(** A [push] whose allocation fails throws [bad_alloc] and changes nothing. *)
Lemma push_bad_alloc k v grows s : push k v None grows s = Throw bad_alloc s.
Proof.
  unfold push, bind, allocate_node, on_world. rewrite do_allocate_None.
  by destruct s.
Qed.

(** A [push] whose block cannot be recorded: [allocate] leaves by [bad_alloc]
    before anything of the queue is touched; the block stays in use. *)
Lemma push_no_room k v a s :
  push k v (Some a) false s
  = Throw bad_alloc
      (set_world (λ _, mkWorld ({[a]} ∪ sys_live (world s)) (sys_log (world s))
                         (blocks_ (world s))) s).
Proof.
  unfold push, bind, allocate_node, on_world. by rewrite do_allocate_no_room.
Qed.

(** A [push] whose value constructor throws: the exception leaves, with the
    block allocated but the queue and every node untouched. *)
Lemma push_ctor_throws k v a e s :
  value_ctor k v = Some e →
  push k v (Some a) true s
  = Throw e (set_world (λ _, mkWorld ({[a]} ∪ sys_live (world s))
                               (sys_log (world s))
                               (blocks_ (world s)
                                ++ [mkBlock a sizeof_Node alignof_Node true])) s).
Proof.
  intros Hctor. unfold push, bind, allocate_node, on_world.
  rewrite do_allocate_Some. unfold construct. by rewrite Hctor.
Qed.

(** A [pop] on a non-empty queue removes the first cell and hands its
    storage to [deallocate]. *)
Lemma pop_ok s a v cs :
  queue_inv s ((a, v) :: cs) →
  ∃ s', pop s = Ok tt s'
    ∧ queue_inv s' cs
    ∧ do_deallocate a sizeof_Node alignof_Node (world s) = Ok tt (world s').
Proof.
  intros Hinv. pose proof (queue_inv_length _ _ Hinv) as Hlen.
  destruct Hinv as (Hch & Hnd & Hin & Htail & Hsize).
  destruct Hch as (Hhead & Hnull & nx & Hl & Hch). simpl in *. subst a.
  apply NoDup_cons in Hnd as [Ha Hnd].
  assert (head_ s ∈ sys_live (world s)) as Hlive by (apply Hin; by left).
  destruct (do_deallocate_in_use (head_ s) sizeof_Node alignof_Node (world s) Hlive)
    as (w' & Hd & Hkeep).
  assert (size_decr (size_ s) = Z.of_nat (length cs)) as Hsz.
  { rewrite Hsize, size_decr_small; lia. }
  assert (∀ x, x ∈ cs.*1 → 0 < x < SIZE_MODULUS ∧ x ∈ sys_live w') as Hin'.
  { intros x Hx. destruct (Hin x) as [? ?]; [by right|]. split; [done|].
    apply Hkeep; [|done]. by intros ->. }
  assert (chain (delete (head_ s) (nodes s)) nx cs) as Hch'
    by (by apply chain_delete_frame).
  assert (if decide (nx = nullptr) then cs = [] else last_addr cs = tail_ s)
    as Hcase.
  { destruct cs as [|[c vc] cs]; simpl in Hch.
    - by rewrite decide_True.
    - destruct Hch as (-> & Hcnull & _). rewrite decide_False by done.
      by rewrite Htail, last_addr_cons. }
  unfold pop, bind, get, throw, modify. rewrite decide_False by done.
  unfold load at 1. rewrite decide_False by done. rewrite Hl. simpl.
  destruct (decide (nx = nullptr)) as [Hnx|Hnx]; simpl;
    unfold destroy, bind, load, modify; simpl;
    rewrite decide_False by done; rewrite Hl; simpl;
    unfold deallocate_node, on_world; simpl; rewrite Hd; simpl;
    (eexists; split; [done|]; split; [|done]);
    split_and!; simpl; try done.
  by subst cs.
Qed.

(** [pop] and [front] on an empty queue throw and change nothing. *)
Lemma pop_empty s :
  head_ s = nullptr → pop s = Throw (runtime_error "pop from empty queue") s.
Proof. intros H. unfold pop, bind, get, throw. by rewrite decide_True. Qed.

Lemma front_empty s :
  head_ s = nullptr → front s = Throw (runtime_error "front of empty queue") s.
Proof. intros H. unfold front, bind, get, throw. by rewrite decide_True. Qed.

(** *** The invariant along sequences of operations *)

Lemma queue_inv_structural s cs : queue_inv s cs → structural_inv s.
Proof.
  intros Hinv. pose proof (queue_inv_length _ _ Hinv) as Hlen.
  destruct Hinv as (Hch & Hnd & Hin & Htail & Hsize).
  destruct (decide (cs = [])) as [->|Hne].
  - simpl in *. unfold last_addr in Htail. simpl in Htail.
    split_and!; [done|done|lia|done].
  - assert (head_ s ≠ nullptr) as Hh by (destruct cs; [done|apply Hch]).
    assert (tail_ s ≠ nullptr) as Ht.
    { rewrite Htail. pose proof (last_addr_elem cs Hne) as Hel.
      apply Hin in Hel. unfold nullptr. lia. }
    assert (0 < size_ s) as Hpos by (destruct cs; [done|simpl in *; lia]).
    split_and!; [split; [lia|done]|done| |].
    + intros _. exists cs.*1. rewrite Hsize, Nat2Z.id.
      split_and!; [by apply chain_walk|by rewrite length_fmap|].
      rewrite Htail. unfold last_addr.
      destruct (last cs.*1) eqn:Hl; [done|].
      apply last_None in Hl. by destruct cs.
    + intros _. rewrite Htail. by eapply chain_last_node.
Qed.

Lemma queue_inv_more_live s cs (w : World) :
  queue_inv s cs → sys_live (world s) ⊆ sys_live w →
  queue_inv (set_world (λ _, w) s) cs.
Proof.
  intros (Hch & Hnd & Hin & Htail & Hsize) Hsub.
  split_and!; try done. intros a Ha. destruct (Hin a Ha). split; [done|].
  simpl. set_solver.
Qed.

Lemma qstep_inv (o : qop) s cs :
  queue_inv s cs → qop_contract o s →
  ∃ s' cs', qstep o s = Some s' ∧ queue_inv s' cs'.
Proof.
  intros Hinv Hc. unfold qstep.
  destruct o as [k v [a|] grows|]; [destruct grows| |]; unfold exec.
  - destruct (value_ctor k v) as [e|] eqn:Hctor.
    + rewrite (push_ctor_throws _ _ _ e) by done. simpl.
      eexists _, cs. split; [done|]. apply queue_inv_more_live; [done|].
      simpl. set_solver.
    + destruct (push_ok k v a s cs) as (s' & Hp & Hinv' & _); [done..|].
      rewrite Hp. simpl. by eexists _, _.
  - rewrite push_no_room. simpl.
    eexists _, cs. split; [done|]. apply queue_inv_more_live; [done|].
    simpl. set_solver.
  - rewrite push_bad_alloc. simpl. by exists s, cs.
  - destruct cs as [|[a v] cs].
    + rewrite pop_empty by apply Hinv. simpl. by exists s, [].
    + destruct (pop_ok s a v cs Hinv) as (s' & Hp & Hinv' & _).
      rewrite Hp. simpl. by exists s', cs.
Qed.

Lemma qrun_inv (ops : list qop) s cs :
  queue_inv s cs → qops_contract ops s →
  ∃ s' cs', qrun ops s = Some s' ∧ queue_inv s' cs'.
Proof.
  revert s cs. induction ops as [|o ops IH]; intros s cs Hinv Hc; simpl.
  - by exists s, cs.
  - destruct Hc as [Hc Hrest].
    destruct (qstep_inv o s cs Hinv Hc) as (s1 & cs1 & Hs & Hinv1).
    rewrite Hs. by apply (IH s1 cs1), Hrest.
Qed.

(** C7.  The structural invariant holds for a newly constructed queue and
    after any sequence of [push] and [pop] calls on it (whether they return
    or throw), none of which has undefined behaviour: [size_] is 0 exactly
    when [head_] is null, [head_] is null exactly when [tail_] is; when
    [size_] is positive the walk along [next] from [head_] visits exactly
    [size_] nodes and ends at [tail_]; and the [next] of the tail node is
    null. *)
Theorem C7_structural_invariant_preserved
    (w : World) (mem : gmap Z (QueueNode T)) (ops : list qop) :
  qops_contract ops (pmr_queue_new w mem) →
  ∃ s, qrun ops (pmr_queue_new w mem) = Some s ∧ structural_inv s.
Proof.
  intros Hc.
  destruct (qrun_inv ops _ [] (pmr_queue_new_inv w mem) Hc) as (s & cs & Hr & Hinv).
  exists s. split; [done|]. by eapply queue_inv_structural.
Qed.

(** *** Pushing, then iterating *)

Lemma exec_all_pushes (l : list (push_kind * T * Z)) s cs :
  queue_inv s cs → qops_contract (pushes l) s →
  Forall (λ x, value_ctor x.1.1 x.1.2 = None) l →
  ∃ s', exec_all (pushes l) s = Ok tt s'
    ∧ queue_inv s' (cs ++ pushed_cells l)
    ∧ blocks_ (world s') = blocks_ (world s) ++ (node_block <$> (pushed_cells l).*1)
    ∧ sys_live (world s') = list_to_set (pushed_cells l).*1 ∪ sys_live (world s)
    ∧ sys_log (world s') = sys_log (world s)
    ∧ ∀ a, a ∈ (pushed_cells l).*1 → a ∉ sys_live (world s).
Proof.
  revert s cs. induction l as [|[[k v] a] l IH]; intros s cs Hinv Hc Hctor.
  - exists s. simpl. rewrite !app_nil_r. split_and!; try done; [set_solver|].
    intros a Ha. by apply elem_of_nil in Ha.
  - apply Forall_cons in Hctor as [Hkv Hctor]. destruct Hc as [Hc Hrest].
    simpl in *. destruct (push_ok k v a s cs) as (s1 & Hp & Hinv1 & Hw1); [done..|].
    destruct (IH s1 (cs ++ [(a, v)]))
      as (s' & He & Hinv' & Hb & Hlive & Hlog & Hfresh); [done| |done|].
    { apply Hrest. unfold qstep. simpl. by rewrite Hp. }
    exists s'. unfold bind. rewrite Hp. rewrite Hw1 in Hb, Hlive, Hlog, Hfresh.
    simpl in *. split_and!.
    + done.
    + by rewrite <- app_assoc in Hinv'.
    + by rewrite Hb, <- app_assoc.
    + rewrite Hlive. set_solver.
    + done.
    + intros x [->|Hx]%elem_of_cons; [apply Hc|].
      specialize (Hfresh x Hx). set_solver.
Qed.

(** C1.  Values pushed in order onto a queue constructed empty (by either
    overload of [push], every allocation and every construction
    succeeding): all the pushes return, [size()] is their number, and the
    loop from [begin()] to [end()] ends and yields exactly the pushed values
    in that order. *)
Theorem C1_push_then_iterate
    (w : World) (mem : gmap Z (QueueNode T)) (l : list (push_kind * T * Z)) :
  qops_contract (pushes l) (pmr_queue_new w mem) →
  Forall (λ x, value_ctor x.1.1 x.1.2 = None) l →
  ∃ s, exec_all (pushes l) (pmr_queue_new w mem) = Ok tt s
    ∧ q_size s = Z.of_nat (length l)
    ∧ ∀ fuel, (length l ≤ fuel)%nat →
        collect fuel (q_begin s) (q_end s) s = Some (Ok (pushed_values l) s).
Proof.
  intros Hc Hctor.
  destruct (exec_all_pushes l _ [] (pmr_queue_new_inv w mem) Hc Hctor)
    as (s & He & Hinv & _).
  exists s. split; [done|]. simpl in Hinv.
  destruct Hinv as (Hch & _ & _ & _ & Hsize). split.
  - unfold q_size, pushed_cells in *. by rewrite Hsize, length_fmap.
  - intros fuel Hfuel. unfold q_begin.
    rewrite (chain_collect s (head_ s) (pushed_cells l) fuel Hch).
    + unfold pushed_cells, pushed_values. by rewrite <- list_fmap_compose.
    + unfold pushed_cells. by rewrite length_fmap.
Qed.

(** *** The empty queue *)

(** C2.  A newly constructed queue is empty, has size 0 and [begin()]
    equal to [end()]; on it, and on any queue that is empty, [front()] and
    [pop()] throw [std::runtime_error], and the state the exception leaves
    is the state before the call (so [size()] is still what it was, 0 for
    the new queue). *)
Theorem C2_empty_queue_reports_error
    (w : World) (mem : gmap Z (QueueNode T)) (s : State T) :
  (q_empty (pmr_queue_new w mem) = true
   ∧ q_size (pmr_queue_new w mem) = 0
   ∧ iter_eq (q_begin (pmr_queue_new w mem)) (q_end (pmr_queue_new w mem)) = true)
  ∧ (q_empty s = true →
     front s = Throw (runtime_error "front of empty queue") s
     ∧ pop s = Throw (runtime_error "pop from empty queue") s
     ∧ ∀ e s', pop s = Throw e s' → q_size s' = q_size s ∧ s' = s).
Proof.
  split; [done|]. intros Hs. apply bool_decide_eq_true in Hs.
  split_and!; [by apply front_empty|by apply pop_empty|].
  intros e s'. rewrite pop_empty by done. by intros [= _ <-].
Qed.

(** *** A constructor that throws *)

(** C9.  When the constructor of the value throws during [push], the
    exception leaves [push] with [head_], [tail_], [size_] and every node
    (so every [next] link) exactly as before the call; when the allocation
    succeeded ([::operator new] gave a block and the resource recorded it) it
    is the constructor's exception that leaves. *)
Theorem C9_push_ctor_failure_keeps_chain
    (s : State T) (k : push_kind) (v : T) (ans : option Z) (grows : bool)
    (e : exception) :
  value_ctor k v = Some e →
  ∃ e' s', push k v ans grows s = Throw e' s'
    ∧ head_ s' = head_ s ∧ tail_ s' = tail_ s ∧ size_ s' = size_ s
    ∧ nodes s' = nodes s
    ∧ (is_Some ans → grows = true → e' = e).
Proof.
  intros Hctor. destruct ans as [a|]; [destruct grows|].
  - rewrite (push_ctor_throws _ _ _ e) by done. eexists _, _. by split_and!.
  - rewrite push_no_room. eexists _, _. by split_and!.
  - rewrite push_bad_alloc. exists bad_alloc, s. split_and!; [done..|].
    intros [a Ha]. discriminate Ha.
Qed.

(** *** The end iterator *)

(** C8, as the code has it.  Dereferencing the end iterator (the one
    [end()] returns, or a default-constructed one) with [operator*] or
    [operator->] goes through a null pointer: the behaviour is undefined,
    and no exception reports it. *)
Theorem C8_deref_end_undefined (s : State T) :
  q_end s = QueueIterator_default
  ∧ operator_star (q_end s) s = Undefined
  ∧ operator_arrow (q_end s) s = Undefined.
Proof. done. Qed.

(** C10.  Advancing the end iterator, by [++it] or [it++], returns and
    leaves the iterator at the end; the state is untouched. *)
Theorem C10_advance_end_is_noop (s : State T) :
  operator_inc (q_end s) s = Ok (q_end s) s
  ∧ operator_inc_post (q_end s) s = Ok (q_end s, q_end s) s
  ∧ operator_inc QueueIterator_default s = Ok QueueIterator_default s
  ∧ operator_inc_post QueueIterator_default s
    = Ok (QueueIterator_default, QueueIterator_default) s.
Proof. done. Qed.

(** *** Round trips

    When none of the addresses handed to the pushes has a record in the
    resource already (as on a new resource), popping everything releases
    every node block.  The hypothesis is what [round_trip_twice] lacks. *)

Lemma find_block_middle (bs rest : list BlockInfo) (b : BlockInfo) :
  ptr b ∉ ptr <$> bs →
  find_block (bs ++ b :: rest) (ptr b) = Some (length bs, b).
Proof.
  intros Hfresh. apply list_find_Some. split_and!.
  - by apply list_lookup_middle.
  - done.
  - intros j c Hj Hlt Hc. rewrite lookup_app_l in Hj by done.
    apply Hfresh. rewrite <- Hc. apply list_elem_of_fmap_2.
    by eapply list_elem_of_lookup_2.
Qed.

Lemma released_not_outstanding (ads : list Z) :
  filter (λ b, allocated b = true) (release ∘ node_block <$> ads) = [].
Proof.
  induction ads as [|a ads IH]; [done|].
  rewrite fmap_cons, filter_cons_False; [done|]. simpl. discriminate.
Qed.

Lemma exec_all_app (ops1 ops2 : list qop) s :
  exec_all (ops1 ++ ops2) s = bind (exec_all ops1) (λ _, exec_all ops2) s.
Proof.
  revert s. induction ops1 as [|o ops1 IH]; intros s; [done|].
  simpl. unfold bind in *. destruct (exec o s); [apply IH|done|done].
Qed.

Lemma exec_all_pops cs s (bs : list BlockInfo) :
  queue_inv s cs →
  blocks_ (world s) = bs ++ (node_block <$> cs.*1) →
  (∀ a, a ∈ cs.*1 → a ∉ ptr <$> bs) →
  ∃ s', exec_all (replicate (length cs) Pop) s = Ok tt s'
    ∧ queue_inv s' []
    ∧ blocks_ (world s') = bs ++ (release ∘ node_block <$> cs.*1)
    ∧ sys_live (world s') = sys_live (world s) ∖ list_to_set cs.*1
    ∧ sys_log (world s') = sys_log (world s) ++ ((λ a, (a, alignof_Node)) <$> cs.*1).
Proof.
  revert s bs. induction cs as [|[a v] cs IH]; intros s bs Hinv Hb Hfresh.
  - exists s. simpl in *. rewrite !app_nil_r in *. split_and!; try done. set_solver.
  - destruct (pop_ok s a v cs Hinv) as (s1 & Hp & Hinv1 & Hd).
    assert (a ∈ sys_live (world s)) as Hlive.
    { destruct Hinv as (_ & _ & Hin & _). apply Hin. by left. }
    assert (a ∉ cs.*1) as Hnd.
    { destruct Hinv as (_ & Hnd & _). simpl in Hnd. by apply NoDup_cons in Hnd as [? _]. }
    simpl in Hb.
    rewrite (do_deallocate_live a _ _ _ (length bs) (node_block a)) in Hd;
      [|rewrite Hb; apply (find_block_middle bs _ (node_block a)), Hfresh; by left
       |done|done].
    injection Hd as Hw1. rewrite Hb in Hw1.
    replace (length bs) with (length bs + 0)%nat in Hw1 by lia.
    rewrite insert_app_r in Hw1. simpl in Hw1.
    destruct (IH s1 (bs ++ [release (node_block a)]))
      as (s' & He & Hinv' & Hb' & Hlive' & Hlog'); [done| | |].
    { rewrite <- Hw1. simpl. by rewrite <- app_assoc. }
    { intros x Hx. rewrite fmap_app, not_elem_of_app. split.
      - apply Hfresh. by right.
      - simpl. rewrite list_elem_of_singleton. by intros ->. }
    exists s'. simpl. unfold bind. rewrite Hp. split; [done|].
    rewrite <- Hw1 in Hlive', Hlog'. simpl in *.
    split_and!; [done| | |].
    + by rewrite Hb', <- app_assoc.
    + rewrite Hlive'. set_solver.
    + by rewrite Hlog', <- app_assoc.
Qed.

(** Pushing [l] onto an empty queue and popping as many times, where no
    address handed out has a record in the resource yet: every call returns,
    the queue is empty again, and the resource has no more live records than
    before (each node block was released, once, with the node's alignment). *)
Lemma round_trip_without_stale_records (l : list (push_kind * T * Z)) s :
  queue_inv s [] → qops_contract (pushes l) s →
  Forall (λ x, value_ctor x.1.1 x.1.2 = None) l →
  (∀ a, a ∈ (pushed_cells l).*1 → a ∉ ptr <$> blocks_ (world s)) →
  ∃ s', exec_all (pushes l ++ replicate (length l) Pop) s = Ok tt s'
    ∧ q_empty s' = true ∧ q_size s' = 0
    ∧ outstanding (world s') = outstanding (world s)
    ∧ sys_live (world s') = sys_live (world s)
    ∧ released_between (world s) (world s')
      = (λ a, (a, alignof_Node)) <$> (pushed_cells l).*1.
Proof.
  intros Hinv Hc Hctor Hstale.
  destruct (exec_all_pushes l s [] Hinv Hc Hctor)
    as (s1 & He1 & Hinv1 & Hb1 & Hlive1 & Hlog1 & Hfresh).
  simpl in Hinv1.
  destruct (exec_all_pops (pushed_cells l) s1 (blocks_ (world s)) Hinv1 Hb1 Hstale)
    as (s' & He2 & Hinv' & Hb' & Hlive' & Hlog').
  exists s'. rewrite exec_all_app. unfold bind. rewrite He1.
  replace (length l) with (length (pushed_cells l))
    by (unfold pushed_cells; by rewrite length_fmap).
  split; [done|]. destruct Hinv' as (Hch & _ & _ & _ & Hsize). simpl in *.
  split_and!.
  - unfold q_empty. by rewrite bool_decide_eq_true_2.
  - done.
  - unfold outstanding. rewrite Hb', filter_app.
    rewrite <- (app_nil_r (filter _ (blocks_ (world s)))) at 2. f_equal.
    apply released_not_outstanding.
  - rewrite Hlive', Hlive1. set_solver.
  - unfold released_between. by rewrite Hlog', Hlog1, drop_app_length.
Qed.

(** In particular on a queue and a resource that are both new. *)
Lemma round_trip_new_resource
    (live : gset Z) (log : list (Z * Z)) (mem : gmap Z (QueueNode T))
    (l : list (push_kind * T * Z)) :
  qops_contract (pushes l) (pmr_queue_new (resource_new live log) mem) →
  Forall (λ x, value_ctor x.1.1 x.1.2 = None) l →
  ∃ s', exec_all (pushes l ++ replicate (length l) Pop)
          (pmr_queue_new (resource_new live log) mem) = Ok tt s'
    ∧ q_empty s' = true ∧ q_size s' = 0
    ∧ outstanding (world s') = [].
Proof.
  intros Hc Hctor.
  destruct (round_trip_without_stale_records l _ (pmr_queue_new_inv _ mem) Hc Hctor)
    as (s' & He & Hempty & Hsize & Hout & _).
  { intros a _ Ha. by apply elem_of_nil in Ha. }
  by exists s'.
Qed.

End QueueProofs.

(** ** The theorems on concrete scenarios *)

Lemma five_pushes_contract :
  int_qops_contract (pushes five_pushes) fresh_int_queue.
Proof. by apply (bool_decide_unpack _); vm_compute. Qed.

Lemma C1_push_then_iterate_witness :
  ∃ s, int_exec_all (pushes five_pushes) fresh_int_queue = Ok tt s
    ∧ q_size s = 5
    ∧ ∀ fuel, (5 ≤ fuel)%nat →
        collect fuel (q_begin s) (q_end s) s = Some (Ok [1; 2; 3; 4; 5] s).
Proof.
  apply (C1_push_then_iterate int_ctor 16 8 (resource_new ∅ []) ∅ five_pushes).
  - exact five_pushes_contract.
  - by repeat constructor.
Defined.

Lemma mixed_ops_contract : int_qops_contract mixed_ops fresh_int_queue.
Proof. by apply (bool_decide_unpack _); vm_compute. Qed.

Lemma C7_structural_invariant_witness :
  ∃ s, int_qrun mixed_ops fresh_int_queue = Some s ∧ structural_inv s.
Proof.
  exact (C7_structural_invariant_preserved int_ctor 16 8 (resource_new ∅ []) ∅
           mixed_ops mixed_ops_contract).
Defined.

Lemma C2_empty_queue_witness :
  front fresh_int_queue = Throw (runtime_error "front of empty queue") fresh_int_queue
  ∧ int_pop fresh_int_queue
    = Throw (runtime_error "pop from empty queue") fresh_int_queue
  ∧ ∀ e s', int_pop fresh_int_queue = Throw e s' →
      q_size s' = q_size fresh_int_queue ∧ s' = fresh_int_queue.
Proof.
  exact (proj2 (C2_empty_queue_reports_error 16 8 (resource_new ∅ []) ∅
                  fresh_int_queue) eq_refl).
Defined.

Lemma C9_push_ctor_failure_witness :
  ∃ e' s', push picky_ctor 16 8 by_copy (-1) (Some 32) true one_element_queue
           = Throw e' s'
    ∧ head_ s' = 16 ∧ tail_ s' = 16 ∧ size_ s' = 1
    ∧ nodes s' = {[16 := mkNode 7 nullptr]}
    ∧ (is_Some (Some 32) → true = true → e' = value_exception (-1)).
Proof.
  exact (C9_push_ctor_failure_keeps_chain picky_ctor 16 8 one_element_queue
           by_copy (-1) (Some 32) true (value_exception (-1)) eq_refl).
Defined.

(** C8 as the specification states it fails: on a new queue, neither
    [operator*] nor [operator->] on [end()] leaves by an exception. *)
Lemma C8_deref_end_reports_no_condition :
  ¬ (∃ e s', operator_star (q_end fresh_int_queue) fresh_int_queue = Throw e s')
  ∧ ¬ (∃ e s', operator_arrow (q_end fresh_int_queue) fresh_int_queue = Throw e s').
Proof. split; intros (e & s' & H); discriminate H. Qed.

(** C3 (the code breaks it).  [used_int_queue] is what one push and one pop
    on a new queue and resource lead to: an empty queue, no live record.  One
    more round trip from there, one push and one pop, with [::operator new]
    within its contract: every call returns and the queue is empty with size 0
    again, but the block of the node is still in use and its record is still
    marked live, because the lookup of [deallocate] stopped at the stale
    record of the first node.  The block is only released when the resource
    is destroyed. *)
Theorem C3_round_trip_leaves_live_block :
  int_exec_all [Push by_copy 1 (Some 16) true; Pop] fresh_int_queue
  = Ok tt used_int_queue
  ∧ q_empty used_int_queue = true
  ∧ outstanding (world used_int_queue) = []
  ∧ int_qops_contract (pushes push_reusing_block) used_int_queue
  ∧ ∃ s, int_exec_all (pushes push_reusing_block
                        ++ replicate (length push_reusing_block) Pop)
           used_int_queue = Ok tt s
      ∧ q_empty s = true ∧ q_size s = 0
      ∧ blocks_ (world s) = [mkBlock 16 16 8 false; mkBlock 16 16 8 true]
      ∧ outstanding (world s) = [mkBlock 16 16 8 true]
      ∧ 16 ∈ sys_live (world s)
      ∧ released_between (world used_int_queue) (world s) = []
      ∧ ∃ w, resource_destructor (world s) = Ok tt w
          ∧ released_between (world s) w = [(16, 8)].
Proof.
  split_and!; [by vm_compute|done|done| |].
  - by apply (bool_decide_unpack _); vm_compute.
  - exists (mkState (mkWorld {[16]} [(16, 8)]
                       [mkBlock 16 16 8 false; mkBlock 16 16 8 true])
                    ∅ nullptr nullptr 0).
    split_and!; [by vm_compute|done|done|done|done|set_solver|done|].
    exists (mkWorld ∅ [(16, 8); (16, 8)]
              [mkBlock 16 16 8 false; mkBlock 16 16 8 true]).
    split; [by vm_compute|done].
Qed.

(** ** Further properties of the resource *)

Lemma do_deallocate_cases (p bytes al : Z) (w : World) :
  do_deallocate p bytes al w = Ok tt w
  ∨ ∃ i b, find_block (blocks_ w) p = Some (i, b) ∧ allocated b = true
      ∧ ((p ∈ sys_live w
          ∧ do_deallocate p bytes al w
            = Ok tt (mkWorld (sys_live w ∖ {[p]}) (sys_log w ++ [(p, alignment b)])
                       (<[i := release b]> (blocks_ w))))
         ∨ ((p ∉ sys_live w) ∧ do_deallocate p bytes al w = Undefined)).
Proof.
  destruct (find_block (blocks_ w) p) as [[i b]|] eqn:Hf.
  2: { left. by apply do_deallocate_not_found. }
  destruct (allocated b) eqn:Hb.
  2: { left. by eapply do_deallocate_not_live. }
  right. exists i, b. split_and!; [done..|].
  destruct (decide (p ∈ sys_live w)) as [Hp|Hp].
  - left. split; [done|]. by apply do_deallocate_live.
  - right. split; [done|]. unfold do_deallocate, bind, get, operator_delete.
    rewrite Hf, Hb. by rewrite decide_False.
Qed.

Lemma record_kept_refl (b : BlockInfo) : record_kept b b.
Proof. by split_and!. Qed.

Lemma records_kept_trans (w1 w2 w3 : World) :
  records_kept w1 w2 → records_kept w2 w3 → records_kept w1 w3.
Proof.
  intros H12 H23 i b Hb. destruct (H12 i b Hb) as (b2 & Hb2 & ? & ? & ? & ?).
  destruct (H23 i b2 Hb2) as (b3 & Hb3 & ? & ? & ? & ?).
  exists b3. split; [done|]. split_and!; try congruence. auto.
Qed.

Lemma step_records_kept (o : op) (w w' : World) :
  step o w = Some w' → records_kept w w'.
Proof.
  intros Hs i b Hb.
  destruct o as [bytes al [p|] grows|p bytes al]; [destruct grows| |];
    unfold step in Hs.
  - rewrite do_allocate_Some in Hs. simpl in Hs. injection Hs as <-. simpl.
    exists b. split; [|apply record_kept_refl].
    rewrite lookup_app_l; [done|]. by eapply lookup_lt_Some.
  - rewrite do_allocate_no_room in Hs. simpl in Hs. injection Hs as <-.
    exists b. split; [done|apply record_kept_refl].
  - rewrite do_allocate_None in Hs. simpl in Hs. injection Hs as <-.
    exists b. split; [done|apply record_kept_refl].
  - destruct (do_deallocate_cases p bytes al w)
      as [Hd|(j & c & Hf & Hc & [[_ Hd]|[_ Hd]])]; rewrite Hd in Hs; simpl in Hs;
      [| |done]; injection Hs as <-.
    + exists b. split; [done|apply record_kept_refl].
    + simpl. destruct (find_block_Some _ _ _ _ Hf) as (Hj & _ & _).
      destruct (decide (i = j)) as [->|Hij].
      * replace c with b in * by congruence. exists (release b). split.
        -- apply list_lookup_insert_eq. by eapply lookup_lt_Some.
        -- by split_and!.
      * exists b. split; [|apply record_kept_refl].
        by rewrite list_lookup_insert_ne.
Qed.

(** X1.  Whatever is called on the resource, a record of [blocks_] is never
    removed or moved, never changes its address, size or alignment, and never
    goes back from non-live to live. *)
Theorem records_never_removed_or_revived (ops : list op) (w w' : World) :
  run ops w = Some w' →
  (length (blocks_ w) ≤ length (blocks_ w'))%nat ∧ records_kept w w'.
Proof.
  revert w. induction ops as [|o ops IH]; intros w Hr; simpl in Hr.
  - injection Hr as <-. split; [done|]. intros i b Hb. exists b.
    split; [done|apply record_kept_refl].
  - destruct (step o w) as [w1|] eqn:Hs; [|done].
    destruct (IH w1 Hr) as [Hlen Hkept].
    pose proof (step_records_kept o w w1 Hs) as Hk1. split.
    + etrans; [|exact Hlen].
      destruct o as [bytes al [p|] grows|p bytes al]; [destruct grows| |];
        unfold step in Hs.
      * rewrite do_allocate_Some in Hs. simpl in Hs. injection Hs as <-. simpl.
        rewrite length_app. lia.
      * rewrite do_allocate_no_room in Hs. simpl in Hs. by injection Hs as <-.
      * rewrite do_allocate_None in Hs. simpl in Hs. by injection Hs as <-.
      * destruct (do_deallocate_cases p bytes al w)
          as [Hd|(j & c & Hf & Hc & [[_ Hd]|[_ Hd]])]; rewrite Hd in Hs; simpl in Hs;
          [| |done]; injection Hs as <-; [done|].
        simpl. by rewrite length_insert.
    + by eapply records_kept_trans.
Qed.

Lemma dead_records_insert (bs : list BlockInfo) (i : nat) (b : BlockInfo) :
  bs !! i = Some b → allocated b = true →
  release_call <$> filter (λ c, allocated c = false) (<[i := release b]> bs)
  ≡ₚ (release_call <$> filter (λ c, allocated c = false) bs) ++ [release_call b].
Proof.
  intros Hi Hb.
  rewrite insert_take_drop by (by eapply lookup_lt_Some).
  rewrite <- (take_drop_middle bs i b Hi) at 3.
  rewrite !filter_app, !fmap_app.
  rewrite filter_cons_True by done.
  rewrite (filter_cons_False _ b) by (by rewrite Hb).
  rewrite fmap_cons. simpl.
  rewrite <- app_assoc. apply Permutation_app_head.
  rewrite <- Permutation_cons_append. done.
Qed.

Lemma step_released (o : op) (w w' : World) :
  step o w = Some w' →
  ∃ l, sys_log w' = sys_log w ++ l
    ∧ release_call <$> dead_records w' ≡ₚ (release_call <$> dead_records w) ++ l.
Proof.
  intros Hs. unfold dead_records.
  destruct o as [bytes al [p|] grows|p bytes al]; [destruct grows| |];
    unfold step in Hs.
  - rewrite do_allocate_Some in Hs. simpl in Hs. injection Hs as <-. simpl. exists [].
    rewrite !app_nil_r. split; [done|].
    by rewrite filter_app, filter_cons_False, app_nil_r by done.
  - rewrite do_allocate_no_room in Hs. simpl in Hs. injection Hs as <-. exists [].
    by rewrite !app_nil_r.
  - rewrite do_allocate_None in Hs. simpl in Hs. injection Hs as <-. exists [].
    by rewrite !app_nil_r.
  - destruct (do_deallocate_cases p bytes al w)
      as [Hd|(j & c & Hf & Hc & [[_ Hd]|[_ Hd]])]; rewrite Hd in Hs; simpl in Hs;
      [| |done]; injection Hs as <-.
    + exists []. by rewrite !app_nil_r.
    + simpl. destruct (find_block_Some _ _ _ _ Hf) as (Hj & Hp & _).
      exists [(p, alignment c)]. split; [done|].
      rewrite dead_records_insert by done. by rewrite <- Hp.
Qed.

Lemma run_released (ops : list op) (w w' : World) :
  run ops w = Some w' →
  ∃ l, sys_log w' = sys_log w ++ l
    ∧ release_call <$> dead_records w' ≡ₚ (release_call <$> dead_records w) ++ l.
Proof.
  revert w. induction ops as [|o ops IH]; intros w Hr; simpl in Hr.
  - injection Hr as <-. exists []. by rewrite !app_nil_r.
  - destruct (step o w) as [w1|] eqn:Hs; [|done].
    destruct (step_released o w w1 Hs) as (l1 & Hl1 & Hp1).
    destruct (IH w1 Hr) as (l2 & Hl2 & Hp2).
    exists (l1 ++ l2). split.
    + by rewrite Hl2, Hl1, <- app_assoc.
    + by rewrite Hp2, Hp1, <- app_assoc.
Qed.

(** X2.  On a resource used from its construction on, the calls of
    [::operator delete] made so far are, up to their order, exactly the
    records marked non-live, each with its recorded address and alignment:
    one release per non-live record, none for a live one. *)
Theorem releases_are_the_dead_records
    (live : gset Z) (log : list (Z * Z)) (ops : list op) (w' : World) :
  run ops (resource_new live log) = Some w' →
  released_between (resource_new live log) w' ≡ₚ release_call <$> dead_records w'.
Proof.
  intros Hr. destruct (run_released ops _ w' Hr) as (l & Hl & Hp).
  unfold released_between. rewrite Hl. simpl. rewrite drop_app_length.
  by rewrite Hp.
Qed.

(** X3.  Any sequence of [allocate] and [deallocate] calls on a new resource,
    whatever addresses are deallocated and however often, is free of undefined
    behaviour as long as [::operator new] keeps its contract: no address is
    handed to [::operator delete] unless it is in use, and the live records
    stay distinct blocks in use. *)
Theorem resource_calls_never_double_free
    (live : gset Z) (log : list (Z * Z)) (ops : list op) :
  ops_contract ops (resource_new live log) →
  ∃ w', run ops (resource_new live log) = Some w' ∧ resource_inv w'.
Proof. intros Hc. apply run_resource_inv; [apply resource_new_inv|done]. Qed.

Lemma step_keeps_block (p : Z) (o : op) (w w' : World) (i : nat) (b : BlockInfo) :
  step o w = Some w' → not_deallocate p o →
  blocks_ w !! i = Some b → ptr b = p →
  blocks_ w' !! i = Some b ∧ (p ∈ sys_live w → p ∈ sys_live w').
Proof.
  intros Hs Hnd Hb Hp.
  destruct o as [bytes al [q|] grows|q bytes al]; [destruct grows| |];
    unfold step in Hs.
  - rewrite do_allocate_Some in Hs. simpl in Hs. injection Hs as <-. simpl. split.
    + rewrite lookup_app_l; [done|]. by eapply lookup_lt_Some.
    + set_solver.
  - rewrite do_allocate_no_room in Hs. simpl in Hs. injection Hs as <-. simpl.
    split; [done|set_solver].
  - rewrite do_allocate_None in Hs. simpl in Hs. by injection Hs as <-.
  - simpl in Hnd.
    destruct (do_deallocate_cases q bytes al w)
      as [Hd|(j & c & Hf & Hc & [[_ Hd]|[_ Hd]])]; rewrite Hd in Hs; simpl in Hs;
      [| |done]; injection Hs as <-; [done|].
    destruct (find_block_Some _ _ _ _ Hf) as (Hj & Hq & _). simpl. split.
    + rewrite list_lookup_insert_ne; [done|]. intros ->. congruence.
    + set_solver.
Qed.

(** X4.  A block stays as it is until it is deallocated by its address: over
    any calls on the resource none of which is a [deallocate] of [ptr b], the
    record [b] is unchanged (still live if it was) and the address stays in
    use. *)
Theorem block_kept_until_deallocated
    (ops : list op) (w w' : World) (i : nat) (b : BlockInfo) :
  run ops w = Some w' → Forall (not_deallocate (ptr b)) ops →
  blocks_ w !! i = Some b →
  blocks_ w' !! i = Some b ∧ (ptr b ∈ sys_live w → ptr b ∈ sys_live w').
Proof.
  revert w. induction ops as [|o ops IH]; intros w Hr Hnd Hb; simpl in Hr.
  - by injection Hr as <-.
  - destruct (step o w) as [w1|] eqn:Hs; [|done].
    apply Forall_cons in Hnd as [Ho Hnd].
    destruct (step_keeps_block (ptr b) o w w1 i b Hs Ho Hb eq_refl) as [Hb1 Hl1].
    destruct (IH w1 Hr Hnd Hb1) as [Hb' Hl']. split; [done|auto].
Qed.

(** X5.  Allocating a block at an address the resource has no record of and
    deallocating it again gives the block back to the system: what is in use
    and which records are live are as before, the one release made uses the
    alignment of the allocation (not the one passed to [deallocate]), and the
    record stays in [blocks_], marked non-live. *)
Theorem allocate_deallocate_round_trip
    (w : World) (p bytes al bytes' al' : Z) :
  new_contract (Some p) w → p ∉ ptr <$> blocks_ w →
  ∃ w', bind (do_allocate bytes al (Some p) true)
             (λ q, do_deallocate q bytes' al') w = Ok tt w'
    ∧ sys_live w' = sys_live w
    ∧ released_between w w' = [(p, al)]
    ∧ blocks_ w' = blocks_ w ++ [mkBlock p bytes al false]
    ∧ outstanding w' = outstanding w.
Proof.
  intros [_ Hfresh] Hnew. unfold bind. rewrite do_allocate_Some.
  erewrite (do_deallocate_live p bytes' al' _ (length (blocks_ w))
              (mkBlock p bytes al true)); simpl.
  - eexists. split; [done|]. simpl. split_and!.
    + set_solver.
    + unfold released_between. simpl. by rewrite drop_app_length.
    + replace (length (blocks_ w)) with (length (blocks_ w) + 0)%nat by lia.
      by rewrite insert_app_r.
    + unfold outstanding. simpl.
      replace (length (blocks_ w)) with (length (blocks_ w) + 0)%nat by lia.
      rewrite insert_app_r. simpl. rewrite filter_app.
      rewrite filter_cons_False by done. by rewrite app_nil_r.
  - by apply (find_block_middle (blocks_ w) [] (mkBlock p bytes al true)).
  - done.
  - set_solver.
Qed.

(** The resource owns exactly its live blocks. *)
Lemma resource_new_owned (live : gset Z) (log : list (Z * Z)) :
  owned_inv live (resource_new live log).
Proof.
  split_and!; [apply resource_new_inv|simpl; set_solver|].
  intros p Hp. by apply elem_of_nil in Hp.
Qed.

Lemma do_allocate_owned (live0 : gset Z) (bytes al : Z) (ans : option Z)
    (grows : bool) (w w' : World) :
  owned_inv live0 w → new_contract ans w →
  state_after (do_allocate bytes al ans grows w) = Some w' →
  owned_inv (live0 ∪ orphan ans grows) w'.
Proof.
  intros (Hinv & Hlive & Hdisj) Hc Hs.
  split; [by eapply do_allocate_inv|].
  destruct ans as [p|]; [destruct grows|]; simpl.
  - rewrite do_allocate_Some in Hs. simpl in Hs. injection Hs as <-. simpl.
    destruct Hc as [_ Hfresh]. rewrite live_ptrs_app, live_ptrs_cons. simpl.
    rewrite union_empty_r_L. split.
    + rewrite Hlive, list_to_set_app_L. set_solver.
    + intros x Hx. rewrite union_empty_r_L.
      apply elem_of_app in Hx as [Hx|Hx]; [by apply Hdisj|].
      apply list_elem_of_singleton in Hx as ->. rewrite Hlive in Hfresh. set_solver.
  - rewrite do_allocate_no_room in Hs. simpl in Hs. injection Hs as <-. simpl.
    destruct Hc as [_ Hfresh]. split.
    + rewrite Hlive. set_solver.
    + intros x Hx. apply not_elem_of_union. split; [by apply Hdisj|].
      rewrite elem_of_singleton. intros ->. apply Hfresh.
      rewrite Hlive. apply elem_of_union. right. by apply elem_of_list_to_set.
  - rewrite do_allocate_None in Hs. simpl in Hs. injection Hs as <-.
    split; [by rewrite union_empty_r_L|].
    intros x Hx. rewrite union_empty_r_L. by apply Hdisj.
Qed.

Lemma do_deallocate_owned (live0 : gset Z) (p bytes al : Z) (w : World) :
  owned_inv live0 w →
  ∃ w', do_deallocate p bytes al w = Ok tt w' ∧ owned_inv live0 w'
    ∧ ∀ x, x ≠ p → x ∈ live_ptrs (blocks_ w) → x ∈ live_ptrs (blocks_ w').
Proof.
  intros (Hinv & Hlive & Hdisj).
  destruct (do_deallocate_inv p bytes al w Hinv) as (w' & Hd & Hinv').
  exists w'. split; [done|].
  destruct (do_deallocate_cases p bytes al w)
    as [Hd'|(i & b & Hf & Hb & [[_ Hd']|[_ Hd']])]; rewrite Hd' in Hd;
    [| |done]; injection Hd as <-; [by split_and!|].
  destruct (find_block_Some _ _ _ _ Hf) as (Hi & Hp & _).
  destruct (live_ptrs_release _ _ _ Hi Hb) as [Hold Hnew].
  destruct Hinv as [Hnd _]. rewrite Hold in Hnd.
  apply NoDup_app in Hnd as (_ & Hn2 & Hn3).
  apply NoDup_cons in Hn3 as [Hn3 _].
  assert (p ∉ live_ptrs (take i (blocks_ w))) as Hn1.
  { intros Hx. apply (Hn2 p Hx). rewrite Hp. by left. }
  subst p.
  assert (ptr b ∉ live0) as Hp0 by (apply Hdisj; rewrite Hold; set_solver).
  split; [split; [done|split]|]; simpl; rewrite ?Hnew.
  - rewrite Hlive, Hold, !list_to_set_app_L, list_to_set_cons.
    apply set_eq. intros x. rewrite elem_of_difference, !elem_of_union,
      !elem_of_list_to_set, elem_of_singleton.
    split; [tauto|]. intros [Hx|[Hx|Hx]].
    + split; [tauto|]. by intros ->.
    + split; [tauto|]. by intros ->.
    + split; [tauto|]. by intros ->.
  - intros x Hx. apply Hdisj. rewrite Hold.
    apply elem_of_app in Hx as [Hx|Hx]; apply elem_of_app; [by left|].
    right. by right.
  - intros x Hne. rewrite Hold.
    intros [Hx|Hx]%elem_of_app; apply elem_of_app; [by left|].
    apply elem_of_cons in Hx as [->|Hx]; [done|by right].
Qed.

Lemma orphans_cons (o : op) (ops : list op) :
  orphans (o :: ops) = op_orphan o ∪ orphans ops.
Proof. done. Qed.

Lemma run_owned (live0 : gset Z) (ops : list op) (w : World) :
  owned_inv live0 w → ops_contract ops w →
  ∃ w', run ops w = Some w' ∧ owned_inv (live0 ∪ orphans ops) w'.
Proof.
  revert live0 w. induction ops as [|o ops IH]; intros live0 w Hinv Hc.
  - exists w. split; [done|]. unfold orphans. simpl. by rewrite union_empty_r_L.
  - destruct Hc as [Hc Hrest]. rewrite orphans_cons, (assoc_L (∪)).
    destruct o as [bytes al ans grows|p bytes al]; simpl in *.
    + destruct (state_after (do_allocate bytes al ans grows w)) as [w'|] eqn:Hs.
      * apply IH; [by eapply do_allocate_owned|by apply Hrest].
      * by destruct ans, grows.
    + destruct (do_deallocate_owned live0 p bytes al w Hinv) as (w' & Hd & Hinv' & _).
      rewrite Hd in *. simpl in *. rewrite union_empty_r_L.
      apply IH; [done|by apply Hrest].
Qed.

Lemma destructor_owned (live0 : gset Z) (w : World) :
  owned_inv live0 w →
  ∃ w', resource_destructor w = Ok tt w' ∧ sys_live w' = live0
    ∧ length (released_between w w') = length (outstanding w).
Proof.
  intros ([Hnd Hsub] & Hlive & Hdisj). eexists. split.
  { unfold resource_destructor, bind, get. by apply destroy_blocks_spec. }
  simpl. split.
  - rewrite Hlive. apply set_eq. intros x.
    rewrite elem_of_difference, elem_of_union, elem_of_list_to_set.
    specialize (Hdisj x). tauto.
  - unfold released_between. simpl. rewrite drop_app_length.
    by rewrite length_fmap.
Qed.

(** X6.  Used from its construction to its destruction, the resource gives
    back every block it has a record of: after any calls and the destructor,
    the addresses in use are those that were in use when the resource was
    created, together with the blocks whose record could not be stored (the
    [push_back] of their [allocate] threw), which nothing releases; the
    destructor made one release per record still live. *)
Theorem resource_lifetime_releases_recorded_blocks
    (live : gset Z) (log : list (Z * Z)) (ops : list op) :
  ops_contract ops (resource_new live log) →
  ∃ w w', run ops (resource_new live log) = Some w
    ∧ resource_destructor w = Ok tt w'
    ∧ sys_live w' = live ∪ orphans ops
    ∧ length (released_between w w') = length (outstanding w).
Proof.
  intros Hc.
  destruct (run_owned live ops _ (resource_new_owned live log) Hc) as (w & Hr & Hinv).
  destruct (destructor_owned _ w Hinv) as (w' & Hd & Hl & Hn).
  by exists w, w'.
Qed.
(** ** Further properties of the queue *)

Section MoreQueueProofs.
Context {T : Type}.
Variable value_ctor : push_kind → T → option exception.
Variables sizeof_Node alignof_Node : Z.

Abbreviation push := (push value_ctor sizeof_Node alignof_Node).
Abbreviation pop := (pop (T := T) sizeof_Node alignof_Node).
Abbreviation exec := (exec value_ctor sizeof_Node alignof_Node).
Abbreviation qstep := (qstep value_ctor sizeof_Node alignof_Node).
Abbreviation qrun := (qrun value_ctor sizeof_Node alignof_Node).
Abbreviation qops_contract := (qops_contract value_ctor sizeof_Node alignof_Node).
Abbreviation node_block := (node_block sizeof_Node alignof_Node).
Abbreviation contents_step := (contents_step value_ctor).
Abbreviation contents_after := (contents_after value_ctor).
Abbreviation queue_destructor := (queue_destructor (T := T) sizeof_Node alignof_Node).

Implicit Types (s : State T) (cs : list (Z * T)).

(** What one operation does to the cells of the queue and to the resource. *)
Lemma qstep_cells (o : qop) s cs :
  queue_inv s cs → qop_contract o s →
  ∃ s' cs', qstep o s = Some s' ∧ queue_inv s' cs'
    ∧ cs'.*2 = contents_step cs.*2 o
    ∧ match o with
      | Push _ _ ans grows =>
          state_after (do_allocate sizeof_Node alignof_Node ans grows (world s))
          = Some (world s')
          ∧ ∃ l, cs' = cs ++ l ∧ ∀ a, a ∈ l.*1 → ans = Some a ∧ grows = true
      | Pop =>
          match cs with
          | [] => s' = s
          | c :: _ =>
              cs = c :: cs'
              ∧ do_deallocate c.1 sizeof_Node alignof_Node (world s)
                = Ok tt (world s')
          end
      end.
Proof.
  intros Hinv Hc. unfold qstep.
  destruct o as [k v [a|] grows|]; [destruct grows| |]; unfold exec.
  - destruct (value_ctor k v) as [e|] eqn:Hctor.
    + rewrite (push_ctor_throws _ _ _ _ _ _ e) by done. simpl.
      eexists _, cs. split_and!; [done| |by rewrite Hctor|done|].
      * apply queue_inv_more_live; [done|]. simpl. set_solver.
      * exists []. rewrite app_nil_r. split; [done|]. intros x Hx.
        by apply elem_of_nil in Hx.
    + destruct (push_ok value_ctor sizeof_Node alignof_Node k v a s cs)
        as (s' & Hp & Hinv' & Hw); [done..|].
      rewrite Hp. simpl. exists s', (cs ++ [(a, v)]).
      split_and!; [done|done| |by rewrite Hw|].
      * rewrite Hctor. by rewrite fmap_app.
      * exists [(a, v)]. split; [done|]. intros x Hx. simpl in Hx.
        apply list_elem_of_singleton in Hx. by subst.
  - rewrite push_no_room. simpl.
    eexists _, cs. split_and!; [done| |done|done|].
    + apply queue_inv_more_live; [done|]. simpl. set_solver.
    + exists []. rewrite app_nil_r. split; [done|]. intros x Hx.
      by apply elem_of_nil in Hx.
  - rewrite push_bad_alloc. simpl. exists s, cs.
    split_and!; [done|done|done|by destruct s|].
    exists []. rewrite app_nil_r. split; [done|]. intros x Hx.
    by apply elem_of_nil in Hx.
  - destruct cs as [|[a v] cs].
    + rewrite pop_empty by apply Hinv. simpl. by exists s, [].
    + destruct (pop_ok sizeof_Node alignof_Node s a v cs Hinv) as (s' & Hp & Hinv' & Hd).
      rewrite Hp. simpl. by exists s', cs.
Qed.

Lemma qrun_contents (ops : list qop) s cs :
  queue_inv s cs → qops_contract ops s →
  ∃ s' cs', qrun ops s = Some s' ∧ queue_inv s' cs'
    ∧ cs'.*2 = contents_after ops cs.*2.
Proof.
  revert s cs. induction ops as [|o ops IH]; intros s cs Hinv Hc; simpl.
  - by exists s, cs.
  - destruct Hc as [Hc Hrest].
    destruct (qstep_cells o s cs Hinv Hc) as (s1 & cs1 & Hs & Hinv1 & Hv & _).
    rewrite Hs. destruct (IH s1 cs1 Hinv1 (Hrest s1 Hs)) as (s' & cs' & Hr & Hinv' & Hv').
    exists s', cs'. split_and!; [done|done|]. by rewrite Hv', Hv.
Qed.

(** X7.  After any operations on a queue constructed empty, the queue holds
    its values first in, first out: [size()] is the number of values pushed
    and not yet popped, [empty()] tells whether there is none, and the loop
    from [begin()] to [end()] yields them oldest first. *)
Theorem queue_is_first_in_first_out
    (w : World) (mem : gmap Z (QueueNode T)) (ops : list qop) :
  qops_contract ops (pmr_queue_new w mem) →
  ∃ s, qrun ops (pmr_queue_new w mem) = Some s
    ∧ q_size s = Z.of_nat (length (contents_after ops []))
    ∧ q_empty s = bool_decide (contents_after ops [] = [])
    ∧ ∀ fuel, (length (contents_after ops []) ≤ fuel)%nat →
        collect fuel (q_begin s) (q_end s) s
        = Some (Ok (contents_after ops []) s).
Proof.
  intros Hc.
  destruct (qrun_contents ops _ [] (pmr_queue_new_inv w mem) Hc)
    as (s & cs & Hr & Hinv & Hv).
  simpl in Hv. rewrite <- Hv. exists s. split; [done|].
  destruct Hinv as (Hch & _ & _ & _ & Hsize). split_and!.
  - unfold q_size. by rewrite Hsize, length_fmap.
  - unfold q_empty. destruct cs as [|[a v] cs]; simpl in *.
    + by rewrite !bool_decide_eq_true_2.
    + destruct Hch as (-> & Hnull & _). by rewrite !bool_decide_eq_false_2.
  - intros fuel Hfuel. rewrite length_fmap in Hfuel. by apply chain_collect.
Qed.

(** X8.  After any operations on a queue constructed empty, [front()]
    returns the oldest value still in the queue and changes nothing; when
    there is none it throws. *)
Theorem front_returns_oldest_value
    (w : World) (mem : gmap Z (QueueNode T)) (ops : list qop) :
  qops_contract ops (pmr_queue_new w mem) →
  ∃ s, qrun ops (pmr_queue_new w mem) = Some s
    ∧ front s = match contents_after ops [] with
                | [] => Throw (runtime_error "front of empty queue") s
                | v :: _ => Ok v s
                end.
Proof.
  intros Hc.
  destruct (qrun_contents ops _ [] (pmr_queue_new_inv w mem) Hc)
    as (s & cs & Hr & Hinv & Hv).
  simpl in Hv. rewrite <- Hv. exists s. split; [done|].
  destruct Hinv as (Hch & _). destruct cs as [|[a v] cs]; simpl in *.
  - by apply front_empty.
  - destruct Hch as (Hh & Hnull & nx & Hl & _).
    unfold front, bind, get, load. rewrite !decide_False by done.
    by rewrite Hl.
Qed.

(** Stepping an iterator along the chain. *)
Lemma advance_chain s (p : Z) cs (k : nat) :
  chain (nodes s) p cs →
  ∃ q, advance k (mkIter p) s = Ok (mkIter q) s ∧ chain (nodes s) q (drop k cs).
Proof.
  revert p cs. induction k as [|k IH]; intros p cs Hch.
  - exists p. by rewrite drop_0.
  - destruct cs as [|[a v] cs]; simpl in Hch.
    + subst p. simpl. unfold bind, operator_inc. simpl.
      destruct (IH nullptr []) as (q & Hq & Hch'); [done|].
      exists q. by rewrite drop_nil in *.
    + destruct Hch as (-> & Hnull & nx & Hl & Hch).
      destruct (IH nx cs Hch) as (q & Hq & Hch').
      exists q. split; [|done]. simpl. unfold bind, operator_inc, load. simpl.
      rewrite bool_decide_eq_true_2 by done. unfold bind.
      rewrite decide_False by done. by rewrite Hl.
Qed.

(** X9.  After any operations on a queue constructed empty, [k] increments
    from [begin()] return and leave the iterator at the [k]-th value (counting
    from 0): it differs from [end()], [operator*] returns that value and
    [operator->] the address of a node holding it.  When the queue holds [k]
    values or fewer, the iterator is [end()]. *)
Theorem increments_reach_kth_value
    (w : World) (mem : gmap Z (QueueNode T)) (ops : list qop) (k : nat) :
  qops_contract ops (pmr_queue_new w mem) →
  ∃ s it, qrun ops (pmr_queue_new w mem) = Some s
    ∧ advance k (q_begin s) s = Ok it s
    ∧ match contents_after ops [] !! k with
      | Some v =>
          iter_ne it (q_end s) = true
          ∧ operator_star it s = Ok v s
          ∧ ∃ a n, operator_arrow it s = Ok a s
              ∧ nodes s !! a = Some n ∧ value n = v
      | None => it = q_end s
      end.
Proof.
  intros Hc.
  destruct (qrun_contents ops _ [] (pmr_queue_new_inv w mem) Hc)
    as (s & cs & Hr & Hinv & Hv).
  simpl in Hv. rewrite <- Hv. destruct Hinv as (Hch & _).
  destruct (advance_chain s (head_ s) cs k Hch) as (q & Hq & Hch').
  exists s, (mkIter q). split_and!; [done|done|].
  rewrite list_lookup_fmap, <- (Nat.add_0_r k), <- lookup_drop.
  destruct (drop k cs) as [|[a v] rest]; simpl in *.
  - by subst q.
  - destruct Hch' as (-> & Hnull & nx & Hl & _). split_and!.
    + unfold iter_ne, iter_eq. simpl. by rewrite bool_decide_eq_false_2.
    + unfold operator_star, bind, load. simpl.
      rewrite decide_False by done. by rewrite Hl.
    + exists a, (mkNode v nx). unfold operator_arrow, bind, load. simpl.
      rewrite decide_False by done. by rewrite Hl.
Qed.

(** X10.  When the constructor of the value throws, [push] does not hand the
    block it has allocated back: the exception leaves with the block still in
    use and its record live, and no node constructed in it. *)
Theorem push_ctor_failure_leaks_block
    (s : State T) (k : push_kind) (v : T) (a : Z) (e : exception) :
  value_ctor k v = Some e →
  ∃ s', push k v (Some a) true s = Throw e s'
    ∧ a ∈ sys_live (world s')
    ∧ node_block a ∈ outstanding (world s')
    ∧ nodes s' = nodes s.
Proof.
  intros Hctor. rewrite (push_ctor_throws _ _ _ _ _ _ e) by done.
  eexists. split; [done|]. simpl. split_and!; [set_solver| |done].
  unfold outstanding. simpl. rewrite filter_app, elem_of_app. right.
  rewrite filter_cons_True by done. by left.
Qed.

(** *** The nodes as blocks of the resource, and tearing everything down *)

Lemma qstep_tracked (live0 : gset Z) (o : qop) s cs :
  tracked_inv live0 s cs → qop_contract o s →
  ∃ s' cs', qstep o s = Some s' ∧ tracked_inv (live0 ∪ qop_orphan o) s' cs'.
Proof.
  intros (Hinv & Hown & Hlive) Hc.
  destruct (qstep_cells o s cs Hinv Hc) as (s' & cs' & Hs & Hinv' & Hv & Hw).
  exists s', cs'. split; [done|]. split; [done|].
  destruct o as [k v ans grows|].
  - destruct Hw as (Hw & l & -> & Hl). split; [by eapply do_allocate_owned|].
    destruct ans as [a|]; [destruct grows|].
    + rewrite do_allocate_Some in Hw. simpl in Hw. injection Hw as <-. simpl.
      intros x. rewrite fmap_app, live_ptrs_app, !elem_of_app.
      intros [Hx|Hx]; [left; by apply Hlive|right].
      destruct (Hl x Hx) as [Hl' _]. injection Hl' as <-.
      rewrite live_ptrs_cons. simpl. by left.
    + rewrite do_allocate_no_room in Hw. simpl in Hw. injection Hw as <-. simpl.
      intros x. rewrite fmap_app, elem_of_app.
      intros [Hx|Hx]; [by apply Hlive|]. by destruct (Hl x Hx).
    + rewrite do_allocate_None in Hw. simpl in Hw. injection Hw as <-.
      intros x. rewrite fmap_app, elem_of_app.
      intros [Hx|Hx]; [by apply Hlive|]. by destruct (Hl x Hx).
  - simpl. rewrite union_empty_r_L. destruct cs as [|c cs0].
    { subst s'. simpl in Hv. apply fmap_nil_inv in Hv. by subst cs'. }
    destruct Hw as [Hcs Hd].
    injection Hcs as <-.
    destruct (do_deallocate_owned live0 c.1 sizeof_Node alignof_Node (world s) Hown)
      as (w' & Hd' & Hown' & Hkeep).
    rewrite Hd in Hd'. injection Hd' as <-. split; [done|].
    intros x Hx. apply Hkeep; [|apply Hlive; by right].
    destruct Hinv as (_ & Hnd & _). simpl in Hnd.
    apply NoDup_cons in Hnd as [Hc1 _]. by intros ->.
Qed.

Lemma qorphans_cons (o : qop (T := T)) (ops : list (qop (T := T))) :
  qorphans (o :: ops) = qop_orphan o ∪ qorphans ops.
Proof. done. Qed.

Lemma qrun_tracked (live0 : gset Z) (ops : list qop) s cs :
  tracked_inv live0 s cs → qops_contract ops s →
  ∃ s' cs', qrun ops s = Some s' ∧ tracked_inv (live0 ∪ qorphans ops) s' cs'.
Proof.
  revert live0 s cs. induction ops as [|o ops IH]; intros live0 s cs Hinv Hc.
  - exists s, cs. split; [done|]. unfold qorphans. simpl.
    by rewrite union_empty_r_L.
  - destruct Hc as [Hc Hrest]. rewrite qorphans_cons, (assoc_L (∪)).
    destruct (qstep_tracked live0 o s cs Hinv Hc) as (s1 & cs1 & Hs & Hinv1).
    simpl. rewrite Hs. by apply (IH _ s1 cs1), Hrest.
Qed.

Lemma new_queue_tracked (live : gset Z) (log : list (Z * Z))
    (mem : gmap Z (QueueNode T)) :
  tracked_inv live (pmr_queue_new (resource_new live log) mem) [].
Proof.
  split_and!; [apply pmr_queue_new_inv|apply resource_new_owned|].
  intros a Ha. by apply elem_of_nil in Ha.
Qed.

Lemma queue_inv_walk s cs :
  queue_inv s cs → walk (Z.to_nat (q_size s)) (nodes s) (head_ s) = Some cs.*1.
Proof.
  intros (Hch & _ & _ & _ & Hsize). unfold q_size.
  rewrite Hsize, Nat2Z.id. by apply chain_walk.
Qed.

(** X11.  After any operations on a new queue and a new resource, the nodes
    of the chain are pairwise distinct blocks, each of them still in use,
    obtained after the resource was created, and tracked by a live record:
    no node of the queue is ever released under it. *)
Theorem queue_nodes_are_live_blocks
    (live : gset Z) (log : list (Z * Z)) (mem : gmap Z (QueueNode T))
    (ops : list qop) :
  qops_contract ops (pmr_queue_new (resource_new live log) mem) →
  ∃ s visited, qrun ops (pmr_queue_new (resource_new live log) mem) = Some s
    ∧ walk (Z.to_nat (q_size s)) (nodes s) (head_ s) = Some visited
    ∧ NoDup visited
    ∧ ∀ a, a ∈ visited →
        a ∈ sys_live (world s) ∧ (a ∉ live)
        ∧ ∃ b, b ∈ outstanding (world s) ∧ ptr b = a.
Proof.
  intros Hc.
  destruct (qrun_tracked live ops _ [] (new_queue_tracked live log mem) Hc)
    as (s & cs & Hr & Hinv & (Hres & Hlive & Hdisj) & Htr).
  exists s, cs.*1. split_and!; [done|by apply queue_inv_walk|apply Hinv|].
  intros a Ha. split_and!.
  - by apply Hinv.
  - intros Ha0. apply (Hdisj a (Htr a Ha)), elem_of_union. by left.
  - specialize (Htr a Ha). unfold live_ptrs in Htr.
    apply list_elem_of_fmap in Htr as (b & -> & Hb). by exists b.
Qed.

(** The loop of [~pmr_queue] on a chain of tracked nodes. *)
Lemma queue_destructor_chain (live0 : gset Z) s cs (fuel : nat) :
  chain (nodes s) (head_ s) cs → NoDup cs.*1 →
  owned_inv live0 (world s) →
  (∀ a, a ∈ cs.*1 → a ∈ live_ptrs (blocks_ (world s))) →
  (length cs ≤ fuel)%nat →
  ∃ s', queue_destructor fuel s = Some (Ok tt s')
    ∧ head_ s' = nullptr ∧ tail_ s' = tail_ s ∧ size_ s' = size_ s
    ∧ (∀ a, nodes s' !! a = if decide (a ∈ cs.*1) then None else nodes s !! a)
    ∧ owned_inv live0 (world s').
Proof.
  revert s fuel. induction cs as [|[a v] cs IH]; intros s fuel Hch Hnd Hown Hlive Hfuel.
  - simpl in Hch. exists s.
    destruct fuel; simpl; rewrite decide_True by done; by split_and!.
  - destruct Hch as (Hh & Hnull & nx & Hl & Hch). simpl in *.
    destruct fuel as [|fuel]; [lia|].
    apply NoDup_cons in Hnd as [Ha Hnd].
    destruct (do_deallocate_owned live0 (head_ s) sizeof_Node alignof_Node
                (world s) Hown) as (w1 & Hd & Hown1 & Hkeep).
    set (s1 := set_world (λ _, w1)
                 (set_nodes (λ h, delete (head_ s) h) (set_head nx s))).
    assert (destructor_body sizeof_Node alignof_Node s = Ok tt s1) as Hbody.
    { unfold destructor_body, bind, get, modify. unfold load at 1.
      rewrite decide_False by done. rewrite Hl. simpl.
      unfold destroy, bind, load, modify. simpl.
      rewrite decide_False by done. rewrite Hl. simpl.
      unfold deallocate_node, on_world. simpl. by rewrite Hd. }
    destruct (IH s1 fuel) as (s' & Hq & Hh' & Ht' & Hs' & Hn' & Hown');
      simpl; try done; try lia.
    { apply chain_delete_frame; [by rewrite Hh|done]. }
    { intros x Hx. apply Hkeep; [|apply Hlive; by right]. intros ->.
      by rewrite Hh in Hx. }
    exists s'. simpl. rewrite decide_False by done. rewrite Hbody.
    split_and!; try done.
    intros x. rewrite Hn'. simpl. rewrite Hh.
    destruct (decide (x = a)) as [->|Hxa].
    + rewrite lookup_delete_eq. repeat case_decide; try done.
      all: exfalso; set_solver.
    + rewrite lookup_delete_ne by done. repeat case_decide; try done.
      all: exfalso; set_solver.
Qed.

(** X12.  After any operations on a new queue and a new resource, the
    destructor of the queue terminates, without undefined behaviour, once it
    is given as many turns as [size()]: it leaves [head_] null and has
    destroyed exactly the nodes of the chain, every other object in memory
    being as before. *)
Theorem queue_destructor_destroys_the_chain
    (live : gset Z) (log : list (Z * Z)) (mem : gmap Z (QueueNode T))
    (ops : list qop) :
  qops_contract ops (pmr_queue_new (resource_new live log) mem) →
  ∃ s visited s', qrun ops (pmr_queue_new (resource_new live log) mem) = Some s
    ∧ walk (Z.to_nat (q_size s)) (nodes s) (head_ s) = Some visited
    ∧ (∀ fuel, (Z.to_nat (q_size s) ≤ fuel)%nat →
         queue_destructor fuel s = Some (Ok tt s'))
    ∧ head_ s' = nullptr
    ∧ ∀ a, nodes s' !! a = if decide (a ∈ visited) then None else nodes s !! a.
Proof.
  intros Hc.
  destruct (qrun_tracked live ops _ [] (new_queue_tracked live log mem) Hc)
    as (s & cs & Hr & Hinv & Hown & Htr).
  assert (Z.to_nat (q_size s) = length cs) as Hlen.
  { destruct Hinv as (_ & _ & _ & _ & Hsize). unfold q_size. rewrite Hsize. lia. }
  destruct (queue_destructor_chain (live ∪ qorphans ops) s cs (length cs))
    as (s' & Hq & Hh & _ & _ & Hn & _); [apply Hinv|apply Hinv|done|done|done|].
  exists s, cs.*1, s'. split_and!; [done|by apply queue_inv_walk| |done|done].
  intros fuel Hfuel. rewrite Hlen in Hfuel.
  destruct (queue_destructor_chain (live ∪ qorphans ops) s cs fuel)
    as (s2 & Hq2 & Hh2 & Ht2 & Hs2 & Hn2 & _); [apply Hinv|apply Hinv|done|done|done|].
  rewrite Hq2. do 2 f_equal.
  (* the result does not depend on the fuel left over *)
  clear -Hq Hq2 Hfuel. revert s fuel Hq Hq2 Hfuel.
  induction (length cs) as [|n IHn]; intros s fuel Hq Hq2 Hfuel.
  - simpl in Hq. destruct (decide (head_ s = nullptr)); [|done].
    destruct fuel; simpl in Hq2; rewrite decide_True in Hq2 by done; congruence.
  - destruct fuel as [|fuel]; [lia|]. simpl in Hq, Hq2.
    destruct (decide (head_ s = nullptr)); [congruence|].
    destruct (destructor_body sizeof_Node alignof_Node s) as [[] s1| |]; try done.
    apply (IHn s1 fuel); [done|done|lia].
Qed.

(** X13.  Tearing down: after any operations on a new queue and a new
    resource, destroying the queue and then the resource returns, with no
    address released twice, and gives back every block the resource has a
    record of, also when addresses were handed out more than once: what is
    left in use is what was in use when the resource was created, together
    with the blocks of pushes whose record could not be stored (the
    [push_back] in [allocate] threw), which nothing releases. *)
Theorem teardown_releases_recorded_blocks
    (live : gset Z) (log : list (Z * Z)) (mem : gmap Z (QueueNode T))
    (ops : list qop) :
  qops_contract ops (pmr_queue_new (resource_new live log) mem) →
  ∃ s s' w', qrun ops (pmr_queue_new (resource_new live log) mem) = Some s
    ∧ queue_destructor (Z.to_nat (q_size s)) s = Some (Ok tt s')
    ∧ resource_destructor (world s') = Ok tt w'
    ∧ sys_live w' = live ∪ qorphans ops.
Proof.
  intros Hc.
  destruct (qrun_tracked live ops _ [] (new_queue_tracked live log mem) Hc)
    as (s & cs & Hr & Hinv & Hown & Htr).
  assert (Z.to_nat (q_size s) = length cs) as Hlen.
  { destruct Hinv as (_ & _ & _ & _ & Hsize). unfold q_size. rewrite Hsize. lia. }
  destruct (queue_destructor_chain (live ∪ qorphans ops) s cs (length cs))
    as (s' & Hq & _ & _ & _ & _ & Hown'); [apply Hinv|apply Hinv|done|done|done|].
  destruct (destructor_owned _ (world s') Hown') as (w' & Hd & Hl & _).
  exists s, s', w'. rewrite Hlen. by split_and!.
Qed.

(** *** Iterators across [push] and [pop] *)

Lemma chain_lookup (h : gmap Z (QueueNode T)) (p : Z) cs (k : nat) (a : Z) (v : T) :
  chain h p cs → cs !! k = Some (a, v) →
  a ≠ nullptr ∧ ∃ nx, h !! a = Some (mkNode v nx).
Proof.
  revert p k. induction cs as [|[c vc] cs IH]; intros p k Hch Hk; [done|].
  destruct Hch as (Hp & Hnull & nx & Hl & Hch). simpl in *.
  destruct k as [|k]; simpl in Hk.
  - injection Hk as -> ->. subst p. split; [done|]. by exists nx.
  - by eapply IH.
Qed.

Lemma pop_nodes s a v cs :
  queue_inv s ((a, v) :: cs) →
  ∃ s', pop s = Ok tt s' ∧ nodes s' = delete a (nodes s).
Proof.
  intros Hinv.
  destruct Hinv as (Hch & Hnd & Hin & Htail & Hsize).
  destruct Hch as (Hhead & Hnull & nx & Hl & Hch). simpl in *. subst a.
  assert (head_ s ∈ sys_live (world s)) as Hlive by (apply Hin; by left).
  destruct (do_deallocate_in_use (head_ s) sizeof_Node alignof_Node (world s) Hlive)
    as (w' & Hd & _).
  unfold pop, bind, get, throw, modify. rewrite decide_False by done.
  unfold load at 1. rewrite decide_False by done. rewrite Hl. simpl.
  destruct (decide (nx = nullptr)) as [Hnx|Hnx]; simpl;
    unfold destroy, bind, load, modify; simpl;
    rewrite decide_False by done; rewrite Hl; simpl;
    unfold deallocate_node, on_world; simpl; rewrite Hd; simpl;
    by eexists.
Qed.

(** X15.  Iterators and the operations of the queue.  Take the iterator
    reached by [k] increments from [begin()] on a queue that holds a [k]-th
    value, and let one more [push] or [pop] act on the queue.  A [push]
    (successful or not), and a [pop] when [k] is not 0, leave the iterator
    valid: [operator*] still returns the same value.  A [pop] when [k] is 0
    destroys the node the iterator points to: dereferencing it afterwards is
    undefined behaviour. *)
Theorem iterator_after_push_or_pop
    (w : World) (mem : gmap Z (QueueNode T)) (ops : list qop) (o : qop)
    (k : nat) (v : T) :
  qops_contract ops (pmr_queue_new w mem) →
  (∀ s, qrun ops (pmr_queue_new w mem) = Some s → qop_contract o s) →
  contents_after ops [] !! k = Some v →
  ∃ s it s', qrun ops (pmr_queue_new w mem) = Some s
    ∧ advance k (q_begin s) s = Ok it s
    ∧ operator_star it s = Ok v s
    ∧ qstep o s = Some s'
    ∧ operator_star it s'
      = match o, k with
        | Pop, O => Undefined
        | _, _ => Ok v s'
        end.
Proof.
  intros Hc Ho Hk.
  destruct (qrun_contents ops _ [] (pmr_queue_new_inv w mem) Hc)
    as (s & cs & Hr & Hinv & Hv).
  simpl in Hv. rewrite <- Hv, list_lookup_fmap in Hk.
  destruct (cs !! k) as [[a v']|] eqn:Hcs; [|done]. simpl in Hk.
  injection Hk as ->.
  destruct (advance_chain s (head_ s) cs k (proj1 Hinv)) as (q & Hq & Hch').
  assert (q = a) as ->.
  { rewrite <- (Nat.add_0_r k), <- lookup_drop in Hcs.
    destruct (drop k cs) as [|c rest]; [done|]. simpl in Hcs.
    injection Hcs as ->. by destruct Hch' as (-> & _). }
  destruct (chain_lookup _ _ _ _ _ _ (proj1 Hinv) Hcs) as (Hnull & nx & Hl).
  assert (∀ s2 cs2 j, queue_inv s2 cs2 → cs2 !! j = Some (a, v) →
            operator_star (mkIter a) s2 = Ok v s2) as Hderef.
  { intros s2 cs2 j Hinv2 Hj.
    destruct (chain_lookup _ _ _ _ _ _ (proj1 Hinv2) Hj) as (_ & nx2 & Hl2).
    unfold operator_star, bind, load. simpl.
    rewrite decide_False by done. by rewrite Hl2. }
  destruct (qstep_cells o s cs Hinv (Ho s Hr)) as (s' & cs' & Hs & Hinv' & _ & Hw).
  exists s, (mkIter a), s'. split_and!; [done|done|by eapply Hderef|done|].
  destruct o as [kk vv ans|].
  - destruct Hw as (_ & l & -> & _). apply (Hderef s' (cs ++ l) k); [done|].
    by apply lookup_app_l_Some.
  - destruct cs as [|c cs0]; [done|]. destruct Hw as [Hcs' _].
    injection Hcs' as <-. destruct k as [|k].
    + simpl in Hcs. injection Hcs as ->.
      destruct (pop_nodes s a v cs0 Hinv) as (s2 & Hp & Hn).
      unfold qstep in Hs. simpl in Hs. rewrite Hp in Hs. simpl in Hs.
      injection Hs as <-.
      unfold operator_star, bind, load. simpl.
      rewrite decide_False by done. by rewrite Hn, lookup_delete_eq.
    + by apply (Hderef s' cs0 k).
Qed.

(** X14.  Round trip on a new queue and a new resource: pushing values and
    popping as many times (every allocation and construction succeeding)
    returns, leaves the queue empty with size 0, no record live and in use
    what was in use before; each node's block was released once, in the order
    of the pushes, with the alignment of a node. *)
Theorem round_trip_releases_every_node
    (live : gset Z) (log : list (Z * Z)) (mem : gmap Z (QueueNode T))
    (l : list (push_kind * T * Z)) :
  qops_contract (pushes l) (pmr_queue_new (resource_new live log) mem) →
  Forall (λ x, value_ctor x.1.1 x.1.2 = None) l →
  ∃ s', exec_all value_ctor sizeof_Node alignof_Node
          (pushes l ++ replicate (length l) Pop)
          (pmr_queue_new (resource_new live log) mem) = Ok tt s'
    ∧ q_empty s' = true ∧ q_size s' = 0
    ∧ outstanding (world s') = []
    ∧ sys_live (world s') = live
    ∧ released_between (resource_new live log) (world s')
      = (λ a, (a, alignof_Node)) <$> (pushed_cells l).*1.
Proof.
  intros Hc Hctor.
  destruct (round_trip_without_stale_records value_ctor sizeof_Node alignof_Node
              l _ (pmr_queue_new_inv _ mem) Hc Hctor)
    as (s' & He & Hempty & Hsize & Hout & Hlive & Hrel).
  { intros a _ Ha. by apply elem_of_nil in Ha. }
  by exists s'.
Qed.

End MoreQueueProofs.
(** ** The further properties on concrete scenarios *)

Lemma churn_trace_contract : ops_contract churn_trace (resource_new ∅ []).
Proof. by apply (bool_decide_unpack _); vm_compute. Qed.

Lemma churn_trace_run : run churn_trace (resource_new ∅ []) = Some churned.
Proof. by vm_compute. Qed.

Lemma calls_elsewhere_run :
  run calls_elsewhere two_blocks_left = Some after_calls_elsewhere.
Proof. by vm_compute. Qed.

Lemma records_never_removed_witness :
  (length (blocks_ two_blocks_left) ≤ length (blocks_ after_calls_elsewhere))%nat
  ∧ records_kept two_blocks_left after_calls_elsewhere.
Proof.
  exact (records_never_removed_or_revived calls_elsewhere two_blocks_left
           after_calls_elsewhere calls_elsewhere_run).
Defined.

Lemma releases_are_the_dead_records_witness :
  released_between (resource_new ∅ []) churned ≡ₚ release_call <$> dead_records churned.
Proof.
  exact (releases_are_the_dead_records ∅ [] churn_trace churned churn_trace_run).
Defined.

Lemma resource_calls_never_double_free_witness :
  ∃ w', run churn_trace (resource_new ∅ []) = Some w' ∧ resource_inv w'.
Proof.
  exact (resource_calls_never_double_free ∅ [] churn_trace churn_trace_contract).
Defined.

Lemma block_kept_witness :
  blocks_ after_calls_elsewhere !! 1%nat = Some (mkBlock 256 200 16 true)
  ∧ (256 ∈ sys_live two_blocks_left → 256 ∈ sys_live after_calls_elsewhere).
Proof.
  apply (block_kept_until_deallocated calls_elsewhere two_blocks_left
           after_calls_elsewhere 1 (mkBlock 256 200 16 true)).
  - exact calls_elsewhere_run.
  - repeat constructor; simpl; lia.
  - reflexivity.
Defined.

Lemma allocate_deallocate_round_trip_witness :
  ∃ w', bind (do_allocate 4 4 (Some 16) true) (λ q, do_deallocate q 4 8)
          (resource_new ∅ []) = Ok tt w'
    ∧ sys_live w' = sys_live (resource_new ∅ [])
    ∧ released_between (resource_new ∅ []) w' = [(16, 4)]
    ∧ blocks_ w' = blocks_ (resource_new ∅ []) ++ [mkBlock 16 4 4 false]
    ∧ outstanding w' = outstanding (resource_new ∅ []).
Proof.
  apply (allocate_deallocate_round_trip (resource_new ∅ []) 16 4 4 4 8).
  - by apply (bool_decide_unpack _); vm_compute.
  - simpl. apply not_elem_of_nil.
Defined.

Lemma churn_then_no_room_contract :
  ops_contract churn_then_no_room (resource_new ∅ []).
Proof. by apply (bool_decide_unpack _); vm_compute. Qed.

Lemma resource_lifetime_witness :
  ∃ w w', run churn_then_no_room (resource_new ∅ []) = Some w
    ∧ resource_destructor w = Ok tt w'
    ∧ sys_live w' = {[512]}
    ∧ length (released_between w w') = length (outstanding w).
Proof.
  exact (resource_lifetime_releases_recorded_blocks ∅ [] churn_then_no_room
           churn_then_no_room_contract).
Defined.

Lemma queue_is_first_in_first_out_witness :
  ∃ s, int_qrun mixed_ops fresh_int_queue = Some s
    ∧ q_size s = Z.of_nat (length (contents_after int_ctor mixed_ops []))
    ∧ q_empty s = bool_decide (contents_after int_ctor mixed_ops [] = [])
    ∧ ∀ fuel, (length (contents_after int_ctor mixed_ops []) ≤ fuel)%nat →
        collect fuel (q_begin s) (q_end s) s
        = Some (Ok (contents_after int_ctor mixed_ops []) s).
Proof.
  exact (queue_is_first_in_first_out int_ctor 16 8 (resource_new ∅ []) ∅
           mixed_ops mixed_ops_contract).
Defined.

Lemma three_pushes_then_pop_contract :
  int_qops_contract (pushes three_pushes ++ [Pop]) fresh_int_queue.
Proof. by apply (bool_decide_unpack _); vm_compute. Qed.

Lemma front_returns_oldest_value_witness :
  ∃ s, int_qrun (pushes three_pushes ++ [Pop]) fresh_int_queue = Some s
    ∧ front s = Ok 20 s.
Proof.
  exact (front_returns_oldest_value int_ctor 16 8 (resource_new ∅ []) ∅
           (pushes three_pushes ++ [Pop]) three_pushes_then_pop_contract).
Defined.

Lemma increments_reach_kth_value_witness :
  ∃ s it, int_qrun (pushes three_pushes ++ [Pop]) fresh_int_queue = Some s
    ∧ advance 1 (q_begin s) s = Ok it s
    ∧ iter_ne it (q_end s) = true
    ∧ operator_star it s = Ok 30 s
    ∧ ∃ a n, operator_arrow it s = Ok a s ∧ nodes s !! a = Some n ∧ value n = 30.
Proof.
  exact (increments_reach_kth_value int_ctor 16 8 (resource_new ∅ []) ∅
           (pushes three_pushes ++ [Pop]) 1 three_pushes_then_pop_contract).
Defined.

Lemma push_ctor_failure_leaks_block_witness :
  ∃ s', push picky_ctor 16 8 by_copy (-1) (Some 32) true one_element_queue
        = Throw (value_exception (-1)) s'
    ∧ 32 ∈ sys_live (world s')
    ∧ node_block 16 8 32 ∈ outstanding (world s')
    ∧ nodes s' = nodes one_element_queue.
Proof.
  exact (push_ctor_failure_leaks_block picky_ctor 16 8 one_element_queue
           by_copy (-1) 32 (value_exception (-1)) eq_refl).
Defined.

Lemma queue_nodes_are_live_blocks_witness :
  ∃ s visited, int_qrun mixed_ops fresh_int_queue = Some s
    ∧ walk (Z.to_nat (q_size s)) (nodes s) (head_ s) = Some visited
    ∧ NoDup visited
    ∧ ∀ a, a ∈ visited →
        a ∈ sys_live (world s) ∧ (a ∉ (∅ : gset Z))
        ∧ ∃ b, b ∈ outstanding (world s) ∧ ptr b = a.
Proof.
  exact (queue_nodes_are_live_blocks int_ctor 16 8 ∅ [] ∅ mixed_ops
           mixed_ops_contract).
Defined.

Lemma queue_destructor_witness :
  ∃ s visited s', int_qrun mixed_ops fresh_int_queue = Some s
    ∧ walk (Z.to_nat (q_size s)) (nodes s) (head_ s) = Some visited
    ∧ (∀ fuel, (Z.to_nat (q_size s) ≤ fuel)%nat →
         queue_destructor 16 8 fuel s = Some (Ok tt s'))
    ∧ head_ s' = nullptr
    ∧ ∀ a, nodes s' !! a = if decide (a ∈ visited) then None else nodes s !! a.
Proof.
  exact (queue_destructor_destroys_the_chain int_ctor 16 8 ∅ [] ∅ mixed_ops
           mixed_ops_contract).
Defined.

Lemma mixed_ops_then_no_room_contract :
  int_qops_contract mixed_ops_then_no_room fresh_int_queue.
Proof. by apply (bool_decide_unpack _); vm_compute. Qed.

Lemma teardown_witness :
  ∃ s s' w', int_qrun mixed_ops_then_no_room fresh_int_queue = Some s
    ∧ queue_destructor 16 8 (Z.to_nat (q_size s)) s = Some (Ok tt s')
    ∧ resource_destructor (world s') = Ok tt w'
    ∧ sys_live w' = {[64]}.
Proof.
  exact (teardown_releases_recorded_blocks int_ctor 16 8 ∅ [] ∅
           mixed_ops_then_no_room mixed_ops_then_no_room_contract).
Defined.

Lemma round_trip_releases_every_node_witness :
  ∃ s', int_exec_all (pushes three_pushes ++ replicate (length three_pushes) Pop)
          fresh_int_queue = Ok tt s'
    ∧ q_empty s' = true ∧ q_size s' = 0
    ∧ outstanding (world s') = []
    ∧ sys_live (world s') = ∅
    ∧ released_between (resource_new ∅ []) (world s') = [(16, 8); (32, 8); (48, 8)].
Proof.
  apply (round_trip_releases_every_node int_ctor 16 8 ∅ [] ∅ three_pushes).
  - by apply (bool_decide_unpack _); vm_compute.
  - by repeat constructor.
Defined.

Lemma three_pushes_contract :
  int_qops_contract (pushes three_pushes) fresh_int_queue.
Proof. by apply (bool_decide_unpack _); vm_compute. Qed.

Lemma iterator_after_push_or_pop_witness :
  ∃ s it s', int_qrun (pushes three_pushes) fresh_int_queue = Some s
    ∧ advance 0 (q_begin s) s = Ok it s
    ∧ operator_star it s = Ok 10 s
    ∧ qstep int_ctor 16 8 Pop s = Some s'
    ∧ operator_star it s' = Undefined.
Proof.
  apply (iterator_after_push_or_pop int_ctor 16 8 (resource_new ∅ []) ∅
           (pushes three_pushes) Pop 0 10).
  - exact three_pushes_contract.
  - intros s _. exact I.
  - reflexivity.
Defined.
